(** * Module resolution of bazel-gazelle's [repo] package

    A shallow embedding of [repo/modules.go]: [importRepoRulesModules]
    and its helpers [copyGoModToTemp], [goListModules], [goModDownload],
    together with the parts of the Go runtime they rely on (a file
    system, the [strings]/[bytes] helpers, map iteration, [sort.Slice]). *)

From Stdlib Require Import String Ascii List Permutation Sorted Lia Bool NArith.
From stdpp Require Import base option list strings gmap fin_maps.

Open Scope string_scope.
Open Scope list_scope.

(** ** Strings and byte slices

    Go strings and [[]byte] are both sequences of bytes; they are
    modelled by [string].  [bytes.TrimSpace] and [bytes.Fields] read
    the bytes as UTF-8 and cut at the runes of [unicode.IsSpace]: the
    six of the table [asciiSpace] of package [bytes] (tab, line feed,
    vertical tab, form feed, carriage return, space), U+0085, U+00A0,
    U+1680, U+2000 to U+200A, U+2028, U+2029, U+202F, U+205F and
    U+3000.  A byte that starts no valid encoding is a rune of its own
    ([utf8.RuneError], width 1) and is not white space. *)

Module Go.

(** The table [asciiSpace] of package [bytes]: the white space that
    is one byte long. *)
Definition isSpace (c : ascii) : bool :=
  match c with
  | "009" | "010" | "011" | "012" | "013" | " " => true
  | _ => false
  end%char.

Definition byteIs (c : ascii) (n : N) : bool := (N_of_ascii c =? n)%N.
Definition byteIn (c : ascii) (lo hi : N) : bool :=
  (lo <=? N_of_ascii c)%N && (N_of_ascii c <=? hi)%N.

(** A continuation byte of UTF-8, [10xxxxxx]. *)
Definition isCont (c : ascii) : bool := byteIn c 0x80 0xBF.

(** The white space of [unicode.IsSpace] that UTF-8 writes in two
    bytes: U+0085 (C2 85) and U+00A0 (C2 A0). *)
Definition space2 (c d : ascii) : bool :=
  byteIs c 0xC2 && (byteIs d 0x85 || byteIs d 0xA0).

(** ... and in three bytes: U+1680 (E1 9A 80), U+2000 to U+200A
    (E2 80 80 to E2 80 8A), U+2028 and U+2029 (E2 80 A8, E2 80 A9),
    U+202F (E2 80 AF), U+205F (E2 81 9F) and U+3000 (E3 80 80). *)
Definition space3 (c d e : ascii) : bool :=
  byteIs c 0xE1 && byteIs d 0x9A && byteIs e 0x80 ||
  byteIs c 0xE2 && byteIs d 0x80 &&
    (byteIn e 0x80 0x8A || byteIs e 0xA8 || byteIs e 0xA9 || byteIs e 0xAF) ||
  byteIs c 0xE2 && byteIs d 0x81 && byteIs e 0x9F ||
  byteIs c 0xE3 && byteIs d 0x80 && byteIs e 0x80.

(** [utf8.DecodeRune] followed by [unicode.IsSpace]: the number of
    bytes of the white-space rune that [s] starts with, 0 when it
    starts with none.  The decoder accepts the shortest encoding of a
    rune only, so these byte sequences are the only ones that decode to
    white space. *)
Definition spaceWidth (s : string) : nat :=
  match s with
  | "" => 0
  | String c s1 =>
      if isSpace c then 1
      else match s1 with
           | "" => 0
           | String d s2 =>
               if space2 c d then 2
               else match s2 with
                    | "" => 0
                    | String e _ => if space3 c d e then 3 else 0
                    end
           end
  end.

(** [strings.HasPrefix] *)
Definition HasPrefix (s pre : string) : bool := String.prefix pre s.

(** [strings.HasSuffix]:
    [len(s) >= len(suffix) && s[len(s)-len(suffix):] == suffix] *)
Definition HasSuffix (s suffix : string) : bool :=
  (String.length suffix <=? String.length s)%nat &&
  (substring (String.length s - String.length suffix)
     (String.length suffix) s =? suffix)%string.

(** [bytes.Split(data, []byte("\n"))]: the pieces between newlines; the
    result always has one more element than there are newlines. *)
Fixpoint SplitLines (s : string) : list string :=
  match s with
  | "" => [""]
  | String c s' =>
      if Ascii.eqb c "010" then "" :: SplitLines s'
      else match SplitLines s' with
           | l :: ls => String c l :: ls
           | [] => [String c ""]
           end
  end.

(** The functions below walk the bytes from left to right; [skip] is
    the number of bytes still to pass of the white-space rune the walk
    is in ([i += size] in Go).  A rune that is not white space is
    passed byte by byte: the bytes after its first are continuation
    bytes, which start no white-space rune, and the first byte of a
    white-space rune is never a continuation byte, so the decoder of Go
    is at a rune boundary wherever a white-space rune starts. *)

(** [bytes.TrimLeftFunc(s, unicode.IsSpace)] *)
Fixpoint dropSpace (skip : nat) (s : string) : string :=
  match s with
  | "" => ""
  | String c s' =>
      match skip with
      | S k => dropSpace k s'
      | 0 => match spaceWidth s with
             | S k => dropSpace k s'
             | 0 => s
             end
      end
  end.

(** Is [s] white-space runes from end to end? *)
Fixpoint spaces (skip : nat) (s : string) : bool :=
  match s with
  | "" => match skip with 0 => true | S _ => false end
  | String c s' =>
      match skip with
      | S k => spaces k s'
      | 0 => match spaceWidth s with
             | S k => spaces k s'
             | 0 => false
             end
      end
  end.

(** [bytes.TrimRightFunc(s, unicode.IsSpace)]: without the longest
    end of [s] that is white-space runes.  Go finds it from the right
    with [utf8.DecodeLastRune], which sees a white-space rune exactly
    where [s] ends with one of the encodings above. *)
Fixpoint dropSpaceEnd (s : string) : string :=
  match s with
  | "" => ""
  | String c s' => if spaces 0 s then "" else String c (dropSpaceEnd s')
  end.

(** [bytes.TrimSpace]: without the white space at either end. *)
Definition TrimSpace (s : string) : string := dropSpaceEnd (dropSpace 0 s).

(** [bytes.Fields]: the maximal runs of bytes that are not in a
    white-space rune, in order. *)
Fixpoint fields (skip : nat) (s : string) : list string :=
  match s with
  | "" => []
  | String c s' =>
      match skip with
      | S k => fields k s'
      | 0 =>
          match spaceWidth s with
          | S k => fields k s'
          | 0 =>
              match s', spaceWidth s' with
              | String _ _, 0 =>
                  match fields 0 s' with
                  | f :: fs => String c f :: fs
                  | [] => [String c ""]
                  end
              | _, _ => String c "" :: fields 0 s'
              end
          end
      end
  end.

Definition Fields (s : string) : list string := fields 0 s.

(** [filepath.IsAbs] on a slash-separated host. *)
Definition IsAbs (p : string) : bool := HasPrefix p "/".

(** [build.IsLocalImport] *)
Definition IsLocalImport (p : string) : bool :=
  (p =? ".")%string || (p =? "..")%string ||
  HasPrefix p "./" || HasPrefix p "../".

End Go.

(** ** Errors and results *)

Definition error := string.

Inductive result (A : Type) : Type :=
| Ok (a : A)
| Err (e : error).
Arguments Ok {A} a.
Arguments Err {A} e.

(** ** Data model *)

(** The anonymous [Replace] struct of a module record. *)
Module Repl.
Record t := mk { Path : string; Version : string }.
End Repl.

(** [type module struct] of [importRepoRulesModules]; a field absent
    from the decoded JSON keeps its zero value. *)
Record module := Module_ {
  Path : string;
  Version : string;
  Sum : string;
  Main : bool;
  Replace : option Repl.t
}.

(** [mod.Sum = sum] *)
Definition setSum (m : module) (sum : string) : module :=
  {| Path := Path m; Version := Version m; Sum := sum;
     Main := Main m; Replace := Replace m |}.

(** The fields of [Repo] that [importRepoRulesModules] fills in; the
    others keep their zero value. *)
Module Repo.
Record t := mk {
  Name : string;
  GoPrefix : string;
  Version : string;
  Sum : string;
  Replace : string
}.
End Repo.

(** What a [json.Decoder] over a tool's output hands out: the value of
    each successive [Decode] call, [More] being false at the end of the
    list. *)
Abbreviation decoded := (list (result module)).

(** [pathToModule]: every key holds a pointer to a record of its own
    ([new(module)] per decoded value), so a map of records loses no
    sharing. *)
Abbreviation index := (gmap string module).

(** ** The file system

    A path is the sequence of names leading from the root to an entry,
    so [filepath.Join(d, name)] appends a name and [filepath.Dir] drops
    the last one. *)

Abbreviation path := (list string).

Inductive node : Type :=
| File (content : string)
| Dir.

Abbreviation FS := (gmap path node).

Definition Join (d : path) (name : string) : path := d ++ [name].
Definition DirOf (p : path) : path := removelast p.

(** Calls of the file system made by this package itself. *)
Inductive fsop : Type :=
| OpOpen (p : path)        (* os.Open: read-only *)
| OpMkdirTemp (d : path)   (* ioutil.TempDir *)
| OpCreate (p : path)      (* os.Create: opened for writing, truncated *)
| OpRemove (p : path)      (* os.Remove *)
| OpRemoveAll (p : path)   (* os.RemoveAll *)
| OpReadFile (p : path).   (* ioutil.ReadFile *)

(** Does the call open, create, change or delete the entry at [p]? *)
Definition writes (op : fsop) (p : path) : Prop :=
  match op with
  | OpOpen _ | OpReadFile _ => False
  | OpMkdirTemp d | OpCreate d | OpRemove d => d = p
  | OpRemoveAll d => d `prefix_of` p
  end.

(** Invocations of the external [go] tool. *)
Inductive call : Type :=
| CallList (dir : path)                          (* go list -m -json all *)
| CallDownload (dir : path) (args : list string). (* go mod download -json args... *)

(** ** The environment of a run

    Everything the run does not decide itself: which system calls fail,
    the directory name [ioutil.TempDir] picks, what the [go] tool
    prints and does to the file system, the order in which the
    runtime walks a map, and the naming function of package [label]. *)
Record World := {
  open_fault : option error;
  tempdir_choice : result path;
  create_fault : option error;
  copy_fault : option error;
  close_fault : option error;
  read_fault : option (nat * error);
  goListModules : path -> FS -> result decoded * FS;
  goModDownload : path -> list string -> FS -> result decoded * FS;
  mapOrder : nat -> list (string * module) -> list (string * module);
  ImportPathToBazelRepoName : string -> string
}.

(** ** State and the monad of a run *)

Record state := State {
  fs : FS;
  logs : list string;     (* log.Printf lines, oldest first *)
  calls : list call;      (* tool invocations, oldest first *)
  ops : list fsop         (* file system calls, oldest first *)
}.

Definition set_fs (f : FS -> FS) (st : state) : state :=
  {| fs := f (fs st); logs := logs st; calls := calls st; ops := ops st |}.
Definition add_log (msg : string) (st : state) : state :=
  {| fs := fs st; logs := logs st ++ [msg]; calls := calls st; ops := ops st |}.
Definition add_call (c : call) (st : state) : state :=
  {| fs := fs st; logs := logs st; calls := calls st ++ [c]; ops := ops st |}.
Definition add_op (o : fsop) (st : state) : state :=
  {| fs := fs st; logs := logs st; calls := calls st; ops := ops st ++ [o] |}.

Definition M (A : Type) : Type := state -> result A * state.

Definition ret {A} (a : A) : M A := fun st => (Ok a, st).
Definition fail {A} (e : error) : M A := fun st => (Err e, st).
Definition bind {A B} (m : M A) (k : A -> M B) : M B :=
  fun st =>
    match m st with
    | (Ok a, st') => k a st'
    | (Err e, st') => (Err e, st')
    end.
(** [defer cleanup] placed before [body]: [cleanup] runs when [body]
    returns, whatever it returns. *)
Definition defer {A} (cleanup : state -> state) (body : M A) : M A :=
  fun st => let '(r, st') := body st in (r, cleanup st').
Definition logPrintf (msg : string) : M unit :=
  fun st => (Ok tt, add_log msg st).

Notation "'do' x <- m ; k" := (bind m (fun x => k))
  (at level 10, x name, m at level 100, k at level 200).

(** ** System calls *)

Section Run.

Context (w : World).

(** [os.Open]: read-only; yields what is stored at [p]. *)
Definition os_Open (p : path) (st : state) : result node * state :=
  let st' := add_op (OpOpen p) st in
  match open_fault w with
  | Some e => (Err e, st')
  | None =>
      match fs st !! p with
      | Some n => (Ok n, st')
      | None => (Err "no such file or directory", st')
      end
  end.

(** [ioutil.TempDir]: makes a directory that did not exist before. *)
Definition ioutil_TempDir (st : state) : result path * state :=
  match tempdir_choice w with
  | Err e => (Err e, st)
  | Ok d =>
      match fs st !! d with
      | Some _ => (Err "file exists", st)
      | None => (Ok d, add_op (OpMkdirTemp d) (set_fs <[d := Dir]> st))
      end
  end.

(** [os.Create]: creates or truncates the file and opens it for writing. *)
Definition os_Create (p : path) (st : state) : result unit * state :=
  let st' := add_op (OpCreate p) st in
  match create_fault w with
  | Some e => (Err e, st')
  | None => (Ok tt, set_fs <[p := File ""]> st')
  end.

(** [io.Copy(dst, src)], [dst] being the file created at [p]. *)
Definition io_Copy (p : path) (src : node) (st : state) : result unit * state :=
  match copy_fault w with
  | Some e => (Err e, st)
  | None =>
      match src with
      | File c => (Ok tt, set_fs <[p := File c]> st)
      | Dir => (Err "is a directory", st)
      end
  end.

(** [os.Remove]: removes a file or an empty directory; its error is
    not looked at. *)
Definition os_Remove (p : path) (st : state) : state :=
  let st' := add_op (OpRemove p) st in
  if decide (map_Forall (fun q _ => p `prefix_of` q -> q = p) (fs st))
  then set_fs (delete p) st'
  else st'.

(** [os.RemoveAll]: removes the entry and everything below it. *)
Definition os_RemoveAll (p : path) (st : state) : state :=
  add_op (OpRemoveAll p)
    (set_fs (filter (fun kv => ¬ p `prefix_of` kv.1)) st).

(** [ioutil.ReadFile]: the bytes read and an error.  A read that
    fails returns, with the error, the bytes it has read by then: none
    when the file cannot be opened, a part of the contents from their
    start when a later [Read] fails.  [read_fault] says after how many
    bytes the read of a file fails, and with what. *)
Definition ioutil_ReadFile (p : path) (st : state) : (string * option error) * state :=
  let st' := add_op (OpReadFile p) st in
  match fs st !! p with
  | Some (File c) =>
      match read_fault w with
      | Some (n, e) => ((substring 0 n c, Some e), st')
      | None => ((c, None), st')
      end
  | Some Dir => (("", Some "is a directory"), st')
  | None => (("", Some "no such file or directory"), st')
  end.

(** ** [copyGoModToTemp]

    The Go function returns the pair [(tempDir, err)]; so does this
    one.  [defer goModOrig.Close()] closes a file opened read-only and
    changes nothing. *)
Definition copyGoModToTemp (filename : path) (st : state)
  : (path * option error) * state :=
  match os_Open filename st with
  | (Err e, st1) => (([], Some e), st1)
  | (Ok goModOrig, st1) =>
      match ioutil_TempDir st1 with
      | (Err e, st2) => (([], Some e), st2)
      | (Ok tempDir, st2) =>
          match os_Create (Join tempDir "go.mod") st2 with
          | (Err e, st3) => (([], Some e), os_Remove tempDir st3)
          | (Ok _, st3) =>
              match io_Copy (Join tempDir "go.mod") goModOrig st3 with
              | (Err e, st4) =>
                  (* the deferred Close runs with err != nil *)
                  (([], Some e), os_RemoveAll tempDir st4)
              | (Ok _, st4) =>
                  (* return tempDir, err; then the deferred
                     if cerr := goModCopy.Close(); err == nil && cerr != nil { err = cerr } *)
                  ((tempDir, close_fault w), st4)
              end
          end
      end
  end.

(** ** The [go] tool *)

Definition run_goListModules (dir : path) : M decoded :=
  fun st =>
    let '(out, fs') := goListModules w dir (fs st) in
    (out, add_call (CallList dir) (set_fs (fun _ => fs') st)).

Definition run_goModDownload (dir : path) (args : list string) : M decoded :=
  fun st =>
    let '(out, fs') := goModDownload w dir args (fs st) in
    (out, add_call (CallDownload dir args) (set_fs (fun _ => fs') st)).

(** ** Listing the modules (the first decode loop) *)

Definition localReplace (r : Repl.t) : bool :=
  Go.IsAbs (Repl.Path r) || Go.IsLocalImport (Repl.Path r).

Definition replaceMsg (m : module) (r : Repl.t) : string :=
  "go_repository does not support file path replacements for "
    +:+ Path m +:+ " -> " +:+ Repl.Path r.

Fixpoint indexModules (dec : decoded) (pathToModule : index) : M index :=
  match dec with
  | [] => ret pathToModule
  | Err e :: _ => fail e
  | Ok m :: dec' =>
      if Main m then indexModules dec' pathToModule
      else
        match Replace m with
        | Some r =>
            if localReplace r
            then do _ <- logPrintf (replaceMsg m r);
                 indexModules dec' pathToModule
            else indexModules dec' (<[Repl.Path r := m]> pathToModule)
        | None => indexModules dec' (<[Path m := m]> pathToModule)
        end
  end.

(** ** Loading the sums of go.sum *)

Definition mergeLine (pathToModule : index) (line : string) : index :=
  match Go.Fields (Go.TrimSpace line) with
  | [path; version; sum] =>
      if Go.HasSuffix version "/go.mod" then pathToModule
      else
        match pathToModule !! path with
        | Some m => <[path := setSum m sum]> pathToModule
        | None => pathToModule
        end
  | _ => pathToModule
  end.

Definition mergeSums (data : string) (pathToModule : index) : index :=
  fold_left mergeLine (Go.SplitLines data) pathToModule.

(** [data, _ = ioutil.ReadFile(goSumPath)] and the loop over its lines. *)
Definition loadSums (filename : path) (pathToModule : index) : M index :=
  fun st =>
    let goSumPath := Join (DirOf filename) "go.sum" in
    let '((data, _), st') := ioutil_ReadFile goSumPath st in
    (Ok (mergeSums data pathToModule), st').

(** ** Recovering the missing sums *)

(** [fmt.Sprintf("%s@%s", ...)] for one module. *)
Definition moduleArg (m : module) : string :=
  match Replace m with
  | Some r => Repl.Path r +:+ "@" +:+ Repl.Version r
  | None => Path m +:+ "@" +:+ Version m
  end.

Fixpoint missingSumArgs (mods : list module) : list string :=
  match mods with
  | [] => []
  | m :: mods' =>
      if decide (Sum m = "") then moduleArg m :: missingSumArgs mods'
      else missingSumArgs mods'
  end.

Fixpoint attachSums (dec : decoded) (pathToModule : index) : M index :=
  match dec with
  | [] => ret pathToModule
  | Err e :: _ => fail e
  | Ok dl :: dec' =>
      match pathToModule !! Path dl with
      | None => attachSums dec' pathToModule
      | Some m => attachSums dec' (<[Path dl := setSum m (Sum dl)]> pathToModule)
      end
  end.

(** [for _, mod := range pathToModule]: the runtime picks the order;
    [n] numbers the loops of the function. *)
Definition rangeMap (n : nat) (pathToModule : index) : list module :=
  (mapOrder w n (map_to_list pathToModule)).*2.

Definition downloadSums (tempDir : path) (pathToModule : index) : M index :=
  match missingSumArgs (rangeMap 0 pathToModule) with
  | [] => ret pathToModule
  | args =>
      do data <- run_goModDownload tempDir args;
      attachSums data pathToModule
  end.

(** ** Translating to repo metadata *)

Definition sumMsg (m : module) : string :=
  "could not determine sum for module " +:+ Path m.

Definition repoOf (m : module) : Repo.t :=
  {| Repo.Name := ImportPathToBazelRepoName w (Path m);
     Repo.GoPrefix := Path m;
     Repo.Version := match Replace m with
                     | Some r => Repl.Version r
                     | None => Version m
                     end;
     Repo.Sum := Sum m;
     Repo.Replace := match Replace m with
                     | Some r => Repl.Path r
                     | None => ""
                     end |}.

Fixpoint translate (mods : list module) : M (list Repo.t) :=
  match mods with
  | [] => ret []
  | m :: mods' =>
      if decide (Sum m = "")
      then do _ <- logPrintf (sumMsg m); translate mods'
      else do repos <- translate mods'; ret (repoOf m :: repos)
  end.

(** [sort.Slice(repos, less)].  Which of two elements that [less] does
    not separate comes first depends on the order of the input, here the
    order of the map walk. *)
Fixpoint insertBy {A} (less : A -> A -> bool) (x : A) (l : list A) : list A :=
  match l with
  | [] => [x]
  | y :: l' => if less y x then y :: insertBy less x l' else x :: l
  end.

Definition sort_Slice {A} (less : A -> A -> bool) (l : list A) : list A :=
  foldr (insertBy less) [] l.

Definition lessName (a b : Repo.t) : bool :=
  (Repo.Name a <? Repo.Name b)%string.

(** ** [importRepoRulesModules] *)

(** The body after [defer os.RemoveAll(tempDir)], one definition per
    commented block of the source. *)

(** [// List all modules except for the main module ...] *)
Definition listModules (tempDir : path) : M index :=
  do data <- run_goListModules tempDir;
  indexModules data ∅.

(** [// Translate to repo metadata.] *)
Definition translateRepos (pathToModule : index) : M (list Repo.t) :=
  do repos <- translate (rangeMap 1 pathToModule);
  ret (sort_Slice lessName repos).

Definition resolveModules (filename tempDir : path) : M (list Repo.t) :=
  do pathToModule <- listModules tempDir;
  do pathToModule <- loadSums filename pathToModule;
  do pathToModule <- downloadSums tempDir pathToModule;
  translateRepos pathToModule.

Definition importRepoRulesModules (filename : path) : M (list Repo.t) :=
  fun st =>
    match copyGoModToTemp filename st with
    | ((_, Some err), st') => (Err err, st')
    | ((tempDir, None), st') =>
        defer (os_RemoveAll tempDir) (resolveModules filename tempDir) st'
    end.

End Run.

(** ** Notions used to state the properties *)

(** The entry a ledger line stands for, if it is one: three fields, the
    second not a [/go.mod] version. *)
Definition ledgerEntry (line : string) : option (string * string * string) :=
  match Go.Fields (Go.TrimSpace line) with
  | [p; v; s] => if Go.HasSuffix v "/go.mod" then None else Some (p, v, s)
  | _ => None
  end.

Definition ledgerEntries (data : string) : list (string * string * string) :=
  omap ledgerEntry (Go.SplitLines data).

Definition applyEntry (pathToModule : index) (e : string * string * string) : index :=
  match pathToModule !! e.1.1 with
  | Some m => <[e.1.1 := setSum m e.2]> pathToModule
  | None => pathToModule
  end.

(** The sum of the last ledger entry for path [k]. *)
Fixpoint lastSumFor (k : string) (es : list (string * string * string)) : option string :=
  match es with
  | [] => None
  | e :: es' =>
      match lastSumFor k es' with
      | Some s => Some s
      | None => if decide (e.1.1 = k) then Some e.2 else None
      end
  end.

(** The key under which the first loop stores a module. *)
Definition indexKey (m : module) : string :=
  match Replace m with
  | Some r => Repl.Path r
  | None => Path m
  end.

Definition hasLocalReplace (m : module) : bool :=
  match Replace m with
  | Some r => localReplace r
  | None => false
  end.

(** The records the first loop stores: not the main module, no
    replacement by a file path. *)
Definition indexed (m : module) : bool :=
  negb (Main m) && negb (hasLocalReplace m).

(** The line the first loop logs for a record, if any. *)
Definition skipMsg (m : module) : option string :=
  if Main m then None
  else match Replace m with
       | Some r => if localReplace r then Some (replaceMsg m r) else None
       | None => None
       end.

Definition storeModule (pathToModule : index) (m : module) : index :=
  <[indexKey m := m]> pathToModule.

Definition add_logs (msgs : list string) (st : state) : state :=
  {| fs := fs st; logs := logs st ++ msgs; calls := calls st; ops := ops st |}.

(** [idx'] has the keys of [idx] and the same records but for their sums. *)
Definition sumsOnly (idx idx' : index) : Prop :=
  forall k,
    (idx !! k = None /\ idx' !! k = None) \/
    (exists m s, idx !! k = Some m /\ idx' !! k = Some (setSum m s)).

(** The runtime visits every entry of a map once, in some order. *)
Definition range_ok (w : World) : Prop :=
  forall n l, mapOrder w n l ≡ₚ l.

(** Ascending order of derived names, equal names allowed. *)
Definition nameLe (a b : Repo.t) : Prop :=
  String.le (Repo.Name a) (Repo.Name b).

(** Ascending order of derived names, equal names excluded. *)
Definition nameLt (a b : Repo.t) : Prop :=
  (Repo.Name a <? Repo.Name b)%string = true.

(** [x] may stand before [y]: [less] does not put [y] first. *)
Definition notAfter {A} (less : A -> A -> bool) (x y : A) : Prop :=
  less y x = false.

(** The run lists [mods] and comes out of the ledger merge with the
    module index [idx], in state [st]; [tempDir] is its directory. *)
Definition reachesMerge (w : World) (filename : path) (st0 : state)
    (tempDir : path) (mods : list module) (idx : index) (st : state) : Prop :=
  exists st1 st2 idx0 st3,
    copyGoModToTemp w filename st0 = ((tempDir, None), st1) /\
    run_goListModules w tempDir st1 = (Ok (Ok <$> mods), st2) /\
    indexModules (Ok <$> mods) ∅ st2 = (Ok idx0, st3) /\
    loadSums w filename idx0 st3 = (Ok idx, st).

(** The run lists [mods] and comes to the translation with the module
    index [idx], in state [st]. *)
Definition reachesTranslation (w : World) (filename : path) (st0 : state)
    (mods : list module) (idx : index) (st : state) : Prop :=
  exists tempDir idx1 st4,
    reachesMerge w filename st0 tempDir mods idx1 st4 /\
    downloadSums w tempDir idx1 st4 = (Ok idx, st).

(** The records the third block collects for [go mod download]. *)
Definition collected (w : World) (pathToModule : index) : list module :=
  filter (fun m => Sum m = "") (rangeMap w 0 pathToModule).

(** A line feed. *)
Definition nl : string := String "010" "".

(** ** A sample run

    The manifest /work/go.mod of a main module that requires a.com/x
    (sum in the ledger), b.com/y (sum missing), c.com/z replaced by
    d.com/z (sum in the ledger) and l.com/z replaced by a directory. *)

Definition sampleModules : list module :=
  [ {| Path := "example.com/me"; Version := ""; Sum := ""; Main := true;
       Replace := None |};
    {| Path := "a.com/x"; Version := "v1.0.0"; Sum := ""; Main := false;
       Replace := None |};
    {| Path := "b.com/y"; Version := "v2.0.0"; Sum := ""; Main := false;
       Replace := None |};
    {| Path := "c.com/z"; Version := "v1.0.0"; Sum := ""; Main := false;
       Replace := Some (Repl.mk "d.com/z" "v2.0.0") |};
    {| Path := "l.com/z"; Version := "v1.0.0"; Sum := ""; Main := false;
       Replace := Some (Repl.mk "../l" "") |} ].

Definition sampleLedger : string :=
  "a.com/x v1.0.0 h1:aaa" +:+ nl +:+
  "a.com/x v1.0.0/go.mod h1:mmm" +:+ nl +:+
  "d.com/z v2.0.0 h1:ddd" +:+ nl.

Definition sampleFS : FS :=
  <[ ["work"; "go.mod"] := File "module example.com/me" ]>
  (<[ ["work"; "go.sum"] := File sampleLedger ]>
  (<[ ["work"] := Dir ]> (<[ ["tmp"] := Dir ]> ∅))).

Definition sampleTemp : path := ["tmp"; "gazelle-temp-gomod1"].

Definition sampleWorld : World :=
  {| open_fault := None;
     tempdir_choice := Ok sampleTemp;
     create_fault := None;
     copy_fault := None;
     close_fault := None;
     read_fault := None;
     goListModules := fun dir f =>
       (Ok (Ok <$> sampleModules), <[Join dir "go.sum" := File ""]> f);
     goModDownload := fun dir args f =>
       (Ok [Ok {| Path := "b.com/y"; Version := "v2.0.0"; Sum := "h1:bbb";
                  Main := false; Replace := None |}], f);
     mapOrder := fun _ l => l;
     ImportPathToBazelRepoName := fun p => p |}.

Definition sampleState : state :=
  {| fs := sampleFS; logs := []; calls := []; ops := [] |}.

Definition sampleManifest : path := ["work"; "go.mod"].

(** ** A run with two records of one declared path

    example.com/a is listed as it is and, once more, replaced by
    example.com/b; the ledger has the sums of both keys.  The naming
    function is the identity, which is injective. *)

Definition twinModules : list module :=
  [ {| Path := "example.com/a"; Version := "v1.0.0"; Sum := ""; Main := false;
       Replace := None |};
    {| Path := "example.com/a"; Version := "v1.0.0"; Sum := ""; Main := false;
       Replace := Some (Repl.mk "example.com/b" "v1.1.0") |} ].

Definition twinLedger : string :=
  "example.com/a v1.0.0 h1:aaa" +:+ nl +:+
  "example.com/b v1.1.0 h1:bbb" +:+ nl.

Definition twinWorld : World :=
  {| open_fault := None;
     tempdir_choice := Ok sampleTemp;
     create_fault := None;
     copy_fault := None;
     close_fault := None;
     read_fault := None;
     goListModules := fun dir f => (Ok (Ok <$> twinModules), f);
     goModDownload := fun dir args f => (Ok [], f);
     mapOrder := fun _ l => l;
     ImportPathToBazelRepoName := fun p => p |}.

Definition twinState : state :=
  {| fs := <[ ["work"; "go.mod"] := File "module example.com/me" ]>
           (<[ ["work"; "go.sum"] := File twinLedger ]>
           (<[ ["work"] := Dir ]> (<[ ["tmp"] := Dir ]> ∅)));
     logs := []; calls := []; ops := [] |}.

(** ** The sample run when the recovery call learns nothing

    [go mod download] prints no record, so b.com/y stays without a sum. *)

Definition silentWorld : World :=
  {| open_fault := None;
     tempdir_choice := Ok sampleTemp;
     create_fault := None;
     copy_fault := None;
     close_fault := None;
     read_fault := None;
     goListModules := goListModules sampleWorld;
     goModDownload := fun dir args f => (Ok [], f);
     mapOrder := fun _ l => l;
     ImportPathToBazelRepoName := fun p => p |}.

(** ** The sample run with an unreadable ledger *)

Definition noLedgerWorld : World :=
  {| open_fault := None;
     tempdir_choice := Ok sampleTemp;
     create_fault := None;
     copy_fault := None;
     close_fault := None;
     read_fault := Some (0, "permission denied");
     goListModules := goListModules sampleWorld;
     goModDownload := goModDownload sampleWorld;
     mapOrder := fun _ l => l;
     ImportPathToBazelRepoName := fun p => p |}.

(** ** The sample run with a ledger that is read in part

    The read of go.sum fails after its first line, 22 bytes. *)



(** ** Notions about the file system *)

(** Every entry lies in directories that exist: each proper prefix of
    the path of an entry is the path of an entry. *)
Definition ancestors_exist (f : FS) : Prop :=
  map_Forall
    (fun q _ => Forall (fun n => is_Some (f !! take n q)) (seq 0 (length q))) f.

(** The [go] tool, run in [dir], leaves every entry outside [dir] as it is. *)
Definition tools_confined (w : World) : Prop :=
  forall (dir : path) (args : list string) (f : FS) (p : path),
    ¬ dir `prefix_of` p ->
    (goListModules w dir f).2 !! p = f !! p /\
    (goModDownload w dir args f).2 !! p = f !! p.

(** From [st] to [st'] nothing outside [d] changed, and no call of the
    file system made in between touched anything outside [d]. *)
Definition frame (d : path) (st st' : state) : Prop :=
  (forall p, ¬ d `prefix_of` p -> fs st' !! p = fs st !! p) /\
  exists new, ops st' = ops st ++ new /\
              Forall (fun op => forall p, ¬ d `prefix_of` p -> ¬ writes op p) new.

Definition framed {A} (d : path) (m : M A) : Prop :=
  forall st, frame d st (m st).2.

(** ** The sample run when closing the copy fails *)

Definition sampleRootedFS : FS := <[ [] := Dir ]> sampleFS.

Definition rootedState : state :=
  {| fs := sampleRootedFS; logs := []; calls := []; ops := [] |}.

Definition closeFailWorld : World :=
  {| open_fault := None;
     tempdir_choice := Ok sampleTemp;
     create_fault := None;
     copy_fault := None;
     close_fault := Some "input/output error";
     read_fault := None;
     goListModules := goListModules sampleWorld;
     goModDownload := goModDownload sampleWorld;
     mapOrder := fun _ l => l;
     ImportPathToBazelRepoName := fun p => p |}.

(** ** A run with two paths of one derived name

    Two modules whose paths differ in letter case only, and a naming
    function that does not tell upper case from lower case. *)

Definition lowerByte (c : ascii) : ascii :=
  let n := nat_of_ascii c in
  if (65 <=? n)%nat && (n <=? 90)%nat then ascii_of_nat (n + 32) else c.

Fixpoint lowerName (s : string) : string :=
  match s with
  | "" => ""
  | String c s' => String (lowerByte c) (lowerName s')
  end.

Definition caseModules : list module :=
  [ {| Path := "github.com/Sirupsen/logrus"; Version := "v1.0.0"; Sum := "";
       Main := false; Replace := None |};
    {| Path := "github.com/sirupsen/logrus"; Version := "v1.4.2"; Sum := "";
       Main := false; Replace := None |} ].

Definition caseLedger : string :=
  "github.com/Sirupsen/logrus v1.0.0 h1:old" +:+ nl +:+
  "github.com/sirupsen/logrus v1.4.2 h1:new" +:+ nl.

Definition caseWorld : World :=
  {| open_fault := None;
     tempdir_choice := Ok sampleTemp;
     create_fault := None;
     copy_fault := None;
     close_fault := None;
     read_fault := None;
     goListModules := fun dir f => (Ok (Ok <$> caseModules), f);
     goModDownload := fun dir args f => (Ok [], f);
     mapOrder := fun _ l => l;
     ImportPathToBazelRepoName := lowerName |}.

Definition caseState : state :=
  {| fs := <[ ["work"; "go.mod"] := File "module example.com/me" ]>
           (<[ ["work"; "go.sum"] := File caseLedger ]>
           (<[ ["work"] := Dir ]> (<[ ["tmp"] := Dir ]> ∅)));
     logs := []; calls := []; ops := [] |}.

(** ** Notions about ledger lines *)

(** No white-space rune starts at a byte of [s]. *)
Fixpoint noSpace (s : string) : bool :=
  match s with
  | "" => true
  | String _ s' => Nat.eqb (Go.spaceWidth s) 0 && noSpace s'
  end.

(** [s] is white-space runes from end to end. *)
Definition allSpace (s : string) : bool := Go.spaces 0 s.

(** A field of a ledger line: not empty, no white space in it. *)
Definition isField (s : string) : Prop := s <> "" /\ noSpace s = true.

(** [s] does not start with a continuation byte. *)
Definition cleanStart (s : string) : bool :=
  match s with
  | "" => true
  | String c _ => negb (Go.isCont c)
  end.

(** U+00A0, U+0085 and U+2003 in UTF-8. *)
Definition nbsp : string := String "194" (String "160" "").
Definition nel : string := String "194" (String "133" "").
Definition emsp : string := String "226" (String "128" (String "131" "")).

(** One step of the second decode loop. *)
Definition attachOne (pathToModule : index) (dl : module) : index :=
  match pathToModule !! Path dl with
  | None => pathToModule
  | Some m => <[Path dl := setSum m (Sum dl)]> pathToModule
  end.

(** ** Sample runs in which the [go] tool lets the run down *)

(** [go list] exits with an error. *)
Definition listFailWorld : World :=
  {| open_fault := None;
     tempdir_choice := Ok sampleTemp;
     create_fault := None;
     copy_fault := None;
     close_fault := None;
     read_fault := None;
     goListModules := fun dir f => (Err "exit status 1", f);
     goModDownload := goModDownload sampleWorld;
     mapOrder := fun _ l => l;
     ImportPathToBazelRepoName := fun p => p |}.

(** The output of [go list] stops decoding after its fifth record. *)
Definition listGarbledWorld : World :=
  {| open_fault := None;
     tempdir_choice := Ok sampleTemp;
     create_fault := None;
     copy_fault := None;
     close_fault := None;
     read_fault := None;
     goListModules := fun dir f =>
       (Ok ((Ok <$> sampleModules) ++
            [Err "unexpected end of JSON input";
             Ok {| Path := "late.com/m"; Version := "v1.0.0"; Sum := "";
                   Main := false; Replace := None |}]), f);
     goModDownload := goModDownload sampleWorld;
     mapOrder := fun _ l => l;
     ImportPathToBazelRepoName := fun p => p |}.

(** [go mod download] exits with an error. *)
Definition downloadFailWorld : World :=
  {| open_fault := None;
     tempdir_choice := Ok sampleTemp;
     create_fault := None;
     copy_fault := None;
     close_fault := None;
     read_fault := None;
     goListModules := goListModules sampleWorld;
     goModDownload := fun dir args f => (Err "exit status 1", f);
     mapOrder := fun _ l => l;
     ImportPathToBazelRepoName := fun p => p |}.

(** The bytes of the ledger next to the manifest: those of go.sum if
    it is a file, none otherwise. *)
Definition ledgerBytes (f : FS) (filename : path) : string :=
  match f !! Join (DirOf filename) "go.sum" with
  | Some (File c) => c
  | _ => ""
  end.

(** ** A sample run of a project without dependencies *)

Definition bareModules : list module :=
  [ {| Path := "example.com/me"; Version := ""; Sum := ""; Main := true;
       Replace := None |};
    {| Path := "l.com/z"; Version := "v1.0.0"; Sum := ""; Main := false;
       Replace := Some (Repl.mk "/src/l" "") |} ].

Definition bareWorld : World :=
  {| open_fault := None;
     tempdir_choice := Ok sampleTemp;
     create_fault := None;
     copy_fault := None;
     close_fault := None;
     read_fault := None;
     goListModules := fun dir f => (Ok (Ok <$> bareModules), f);
     goModDownload := goModDownload sampleWorld;
     mapOrder := fun _ l => l;
     ImportPathToBazelRepoName := fun p => p |}.

(** ** A sample run on a manifest that is a directory *)

Definition dirManifestState : state :=
  {| fs := <[ ["work"; "go.mod"] := Dir ]> sampleRootedFS;
     logs := []; calls := []; ops := [] |}.

(** * Properties *)

(** ** Byte-slice helpers *)

Example Fields_ledger_line :
  Go.Fields (Go.TrimSpace ("  a.com/x v1.0.0" +:+ String "009" "h1:abc= "))
  = ["a.com/x"; "v1.0.0"; "h1:abc="].
Proof. reflexivity. Qed.

(** White space of more than one byte, and bytes that only look like
    the start of it. *)
Example Fields_unicode_space :
  Go.Fields ("a.com/x" +:+ nbsp +:+ "v1.0.0 h1:aaa") =
    ["a.com/x"; "v1.0.0"; "h1:aaa"] /\
  Go.TrimSpace (emsp +:+ "a.com/x v1.0.0 h1:aaa" +:+ nel) =
    "a.com/x v1.0.0 h1:aaa" /\
  Go.Fields (String "226" (String "128" "x")) =
    [String "226" (String "128" "x")] /\
  Go.Fields (String "226" nel +:+ String "160" "") =
    [String "226" ""; String "160" ""].
Proof. repeat split; reflexivity. Qed.

Example SplitLines_trailing_newline :
  Go.SplitLines ("a" +:+ nl +:+ "b" +:+ nl) = ["a"; "b"; ""] /\
  Go.SplitLines "" = [""].
Proof. split; reflexivity. Qed.

Example HasSuffix_go_mod :
  Go.HasSuffix "v1.0.0/go.mod" "/go.mod" = true /\
  Go.HasSuffix "v1.0.0" "/go.mod" = false /\
  Go.HasSuffix "mod" "/go.mod" = false.
Proof. repeat split; reflexivity. Qed.

Example localReplace_paths :
  localReplace (Repl.mk "/src/l" "") = true /\
  localReplace (Repl.mk "../l" "") = true /\
  localReplace (Repl.mk "." "") = true /\
  localReplace (Repl.mk ".hidden/l" "") = false /\
  localReplace (Repl.mk "d.com/z" "v2.0.0") = false.
Proof. repeat split; reflexivity. Qed.

Lemma fields_nonempty k s f : f ∈ Go.fields k s -> f <> "".
Proof.
  revert k f. induction s as [|c s IH]; intros k f; [by intros ?%elem_of_nil|].
  cbn [Go.fields]. destruct k as [|k]; [|by apply IH].
  destruct (Go.spaceWidth (String c s)); [|by apply IH].
  assert (f ∈ String c "" :: Go.fields 0 s -> f <> "") as Hcons.
  { intros [->|?]%elem_of_cons; [done|by eapply IH]. }
  destruct s as [|d s]; [done|].
  destruct (Go.spaceWidth (String d s)); [|done].
  destruct (Go.fields 0 (String d s)) as [|g gs] eqn:E.
  - by intros ->%list_elem_of_singleton.
  - intros [->|?]%elem_of_cons; [done|]. apply (IH 0). rewrite E. by right.
Qed.

Lemma Fields_nonempty s f : f ∈ Go.Fields s -> f <> "".
Proof. apply fields_nonempty. Qed.

Lemma mergeLine_entry idx line :
  mergeLine idx line = from_option (applyEntry idx) idx (ledgerEntry line).
Proof.
  unfold mergeLine, ledgerEntry.
  destruct (Go.Fields _) as [|p [|v [|s [|? ?]]]]; try done.
  by destruct (Go.HasSuffix v "/go.mod").
Qed.

Lemma mergeSums_entries data idx :
  mergeSums data idx = fold_left applyEntry (ledgerEntries data) idx.
Proof.
  unfold mergeSums, ledgerEntries.
  generalize (Go.SplitLines data) as ls. intros ls. revert idx.
  induction ls as [|l ls IH]; intros idx; simpl; [done|].
  rewrite mergeLine_entry, IH. by destruct (ledgerEntry l).
Qed.

Lemma ledgerEntry_sum_nonempty line p v s :
  ledgerEntry line = Some (p, v, s) -> s <> "".
Proof.
  unfold ledgerEntry.
  destruct (Go.Fields _) as [|p' [|v' [|s' [|? ?]]]] eqn:E; try done.
  destruct (Go.HasSuffix v' "/go.mod"); [done|].
  intros [= <- <- <-]. apply (Fields_nonempty (Go.TrimSpace line)).
  rewrite E. set_solver.
Qed.

Lemma ledgerEntries_sum_nonempty data p v s :
  (p, v, s) ∈ ledgerEntries data -> s <> "".
Proof.
  unfold ledgerEntries. intros (line & _ & H)%list_elem_of_omap.
  by eapply ledgerEntry_sum_nonempty.
Qed.

Lemma setSum_setSum m s s' : setSum (setSum m s) s' = setSum m s'.
Proof. done. Qed.

Lemma setSum_id m : setSum m (Sum m) = m.
Proof. by destruct m. Qed.

Lemma fold_applyEntry_lookup es idx k :
  fold_left applyEntry es idx !! k =
  (fun m => from_option (setSum m) m (lastSumFor k es)) <$> idx !! k.
Proof.
  revert idx. induction es as [|[[p v] s] es IH]; intros idx; simpl.
  - by destruct (idx !! k).
  - rewrite IH. unfold applyEntry; simpl.
    destruct (decide (p = k)) as [->|Hne].
    + destruct (idx !! k) as [m|] eqn:Hk.
      * rewrite lookup_insert_eq. simpl.
        by destruct (lastSumFor k es).
      * by rewrite Hk.
    + destruct (idx !! p) as [m|] eqn:Hp.
      * rewrite lookup_insert_ne by done.
        destruct (idx !! k); simpl; [|done]. by destruct (lastSumFor k es).
      * destruct (idx !! k); simpl; [|done]. by destruct (lastSumFor k es).
Qed.

Lemma lastSumFor_Some k es s :
  lastSumFor k es = Some s -> exists v, (k, v, s) ∈ es.
Proof.
  induction es as [|[[p v] s'] es IH]; simpl; [done|].
  destruct (lastSumFor k es) as [s0|].
  - intros [= ->]. destruct IH as [v0 ?]; [done|]. exists v0. by right.
  - destruct (decide (p = k)) as [->|]; [|done].
    intros [= ->]. exists v. by left.
Qed.

Lemma lastSumFor_is_Some k es v s :
  (k, v, s) ∈ es -> is_Some (lastSumFor k es).
Proof.
  induction es as [|[[p v'] s'] es IH]; simpl.
  - by intros ?%elem_of_nil.
  - intros [[= <- <- <-]|Hin]%elem_of_cons.
    + destruct (lastSumFor k es); [by eexists|]. rewrite decide_True by done. by eexists.
    + destruct (IH Hin) as [s0 ->]. by eexists.
Qed.

(** Nothing follows the entry that supplies [lastSumFor]. *)
Lemma lastSumFor_last k es s :
  lastSumFor k es = Some s ->
  exists (es1 : list (string * string * string)) v es2,
    es = (es1 ++ (k, v, s) :: es2)%list /\
                    forall v' s', (k, v', s') ∉ es2.
Proof.
  induction es as [|[[p v] s'] es IH]; simpl; [done|].
  destruct (lastSumFor k es) as [s0|] eqn:E.
  - intros [= ->]. destruct IH as (es1 & v0 & es2 & -> & Hno); [done|].
    by exists ((p, v, s') :: es1), v0, es2.
  - destruct (decide (p = k)) as [->|]; [|done].
    intros [= ->]. exists [], v, es. split; [done|].
    intros v' s0 Hin. apply lastSumFor_is_Some in Hin. rewrite E in Hin.
    by destruct Hin.
Qed.

Lemma mergeSums_lookup data idx k :
  mergeSums data idx !! k =
  (fun m => from_option (setSum m) m (lastSumFor k (ledgerEntries data))) <$> idx !! k.
Proof. rewrite mergeSums_entries. apply fold_applyEntry_lookup. Qed.

Lemma mergeSums_empty idx : mergeSums "" idx = idx.
Proof. reflexivity. Qed.

(** ** The monad *)

Lemma bind_Ok_inv {A B} (m : M A) (k : A -> M B) st b st' :
  bind m k st = (Ok b, st') ->
  exists a st1, m st = (Ok a, st1) /\ k a st1 = (Ok b, st').
Proof.
  unfold bind. destruct (m st) as [[a|e] st1]; [|done]. eauto.
Qed.

Lemma bind_Ok {A B} (m : M A) (k : A -> M B) st a st1 :
  m st = (Ok a, st1) -> bind m k st = k a st1.
Proof. unfold bind. by intros ->. Qed.

Lemma bind_Err {A B} (m : M A) (k : A -> M B) st e st1 :
  m st = (Err e, st1) -> bind m k st = (Err e, st1).
Proof. unfold bind. by intros ->. Qed.

Lemma add_logs_nil st : add_logs [] st = st.
Proof. destruct st. unfold add_logs; simpl. by rewrite app_nil_r. Qed.

Lemma add_logs_cons msg msgs st :
  add_logs msgs (add_log msg st) = add_logs (msg :: msgs) st.
Proof. unfold add_logs, add_log; simpl. by rewrite <- app_assoc. Qed.

(** ** The first loop *)

Lemma indexModules_Ok (mods : list module) idx st :
  indexModules (Ok <$> mods) idx st =
  (Ok (foldl storeModule idx (filter (fun m => indexed m) mods)),
   add_logs (omap skipMsg mods) st).
Proof.
  revert idx st. induction mods as [|m mods IH]; intros idx st.
  - simpl. by rewrite add_logs_nil.
  - cbn [fmap list_fmap indexModules omap list_omap].
    unfold skipMsg at 1.
    destruct (Main m) eqn:Hmain.
    { rewrite filter_cons_False; [apply IH|].
      unfold indexed. rewrite Hmain. by intros []. }
    destruct (Replace m) as [r|] eqn:Hr.
    + destruct (localReplace r) eqn:Hl.
      * rewrite filter_cons_False.
        2:{ unfold indexed, hasLocalReplace. rewrite Hmain, Hr, Hl. by intros []. }
        unfold bind, logPrintf. rewrite IH. by rewrite add_logs_cons.
      * rewrite filter_cons_True.
        2:{ unfold indexed, hasLocalReplace. by rewrite Hmain, Hr, Hl. }
        rewrite IH. cbn [foldl]. unfold storeModule at 3, indexKey. by rewrite Hr.
    + rewrite filter_cons_True.
      2:{ unfold indexed, hasLocalReplace. by rewrite Hmain, Hr. }
      rewrite IH. cbn [foldl]. unfold storeModule at 3, indexKey. by rewrite Hr.
Qed.

Lemma indexModules_Ok_inv dec idx st idx' st' :
  indexModules dec idx st = (Ok idx', st') ->
  exists mods, dec = Ok <$> mods.
Proof.
  revert idx st. induction dec as [|[m|e] dec IH]; intros idx st; simpl.
  - by exists [].
  - intros H.
    assert (exists idx1 st1, indexModules dec idx1 st1 = (Ok idx', st')) as (?&?&H1).
    { destruct (Main m); [eauto|]. destruct (Replace m) as [r|]; [|eauto].
      destruct (localReplace r); [|eauto].
      apply bind_Ok_inv in H as (?&?&_&?). eauto. }
    destruct (IH _ _ H1) as [mods ->]. by exists (m :: mods).
  - done.
Qed.

Lemma storeModule_elem ms idx k m :
  foldl storeModule idx ms !! k = Some m ->
  (m ∈ ms /\ indexKey m = k) \/ idx !! k = Some m.
Proof.
  revert idx. induction ms as [|m0 ms IH]; intros idx; simpl; [by auto|].
  intros [[? ?]|H]%IH.
  - left. split; [by right|done].
  - unfold storeModule in H.
    destruct (decide (indexKey m0 = k)) as [<-|Hne].
    + rewrite lookup_insert_eq in H. injection H as ->. left. split; [by left|done].
    + rewrite lookup_insert_ne in H by done. by right.
Qed.

Lemma storeModule_other ms idx k :
  (forall m, m ∈ ms -> indexKey m <> k) ->
  foldl storeModule idx ms !! k = idx !! k.
Proof.
  revert idx. induction ms as [|m0 ms IH]; intros idx Hno; simpl; [done|].
  rewrite IH by (intros; apply Hno; by right).
  unfold storeModule. rewrite lookup_insert_ne; [done|]. apply Hno. by left.
Qed.

Lemma storeModule_last ms1 m ms2 idx :
  (forall m', m' ∈ ms2 -> indexKey m' <> indexKey m) ->
  foldl storeModule idx (ms1 ++ m :: ms2) !! indexKey m = Some m.
Proof.
  intros Hno. rewrite foldl_app. simpl.
  rewrite storeModule_other by done.
  unfold storeModule. apply lookup_insert_eq.
Qed.

Lemma storeModule_some ms idx m :
  m ∈ ms ->
  exists m', foldl storeModule idx ms !! indexKey m = Some m' /\
             m' ∈ ms /\ indexKey m' = indexKey m.
Proof.
  revert idx. induction ms as [|m0 ms IH] using rev_ind; intros idx.
  - by intros ?%elem_of_nil.
  - rewrite foldl_app. simpl. intros [Hin | Heq%list_elem_of_singleton]%elem_of_app; [|subst m0].
    + destruct (decide (indexKey m0 = indexKey m)) as [E|Hne].
      * exists m0. unfold storeModule. rewrite E, lookup_insert_eq.
        split; [done|]. split; [|done]. apply elem_of_app. right. by left.
      * destruct (IH idx Hin) as (m' & H1 & H2 & H3).
        exists m'. unfold storeModule. rewrite lookup_insert_ne by done.
        split; [done|]. split; [|done]. apply elem_of_app. by left.
    + exists m. unfold storeModule. rewrite lookup_insert_eq.
      split; [done|]. split; [|done]. apply elem_of_app. right. by left.
Qed.

(** ** Records that differ in their sums only *)

Lemma sumsOnly_refl idx : sumsOnly idx idx.
Proof.
  intros k. destruct (idx !! k) as [m|] eqn:E; [right|by left].
  exists m, (Sum m). by rewrite setSum_id.
Qed.

Lemma sumsOnly_trans idx1 idx2 idx3 :
  sumsOnly idx1 idx2 -> sumsOnly idx2 idx3 -> sumsOnly idx1 idx3.
Proof.
  intros H12 H23 k.
  destruct (H12 k) as [[? ?]|(m & s & ? & E2)];
    destruct (H23 k) as [[? ?]|(m' & s' & E2' & E3)]; try congruence.
  - by left.
  - right. exists m, s'. split; [done|].
    rewrite E2 in E2'. injection E2' as <-. by rewrite E3.
Qed.

Lemma sumsOnly_insert idx k m s :
  idx !! k = Some m -> sumsOnly idx (<[k := setSum m s]> idx).
Proof.
  intros Hk k'. destruct (decide (k = k')) as [<-|Hne].
  - right. exists m, s. by rewrite lookup_insert_eq.
  - rewrite lookup_insert_ne by done. apply sumsOnly_refl.
Qed.

Lemma sumsOnly_mergeSums data idx : sumsOnly idx (mergeSums data idx).
Proof.
  intros k. rewrite mergeSums_lookup.
  destruct (idx !! k) as [m|]; simpl; [right|by left].
  destruct (lastSumFor k _) as [s|]; simpl.
  - by exists m, s.
  - exists m, (Sum m). by rewrite setSum_id.
Qed.

Lemma sumsOnly_Some idx idx' k m' :
  sumsOnly idx idx' -> idx' !! k = Some m' ->
  exists m, idx !! k = Some m /\ m' = setSum m (Sum m').
Proof.
  intros H Hk. destruct (H k) as [[? ?]|(m & s & ? & E)]; [congruence|].
  exists m. split; [done|]. rewrite Hk in E. by injection E as ->.
Qed.

Lemma sumsOnly_Some_l idx idx' k m :
  sumsOnly idx idx' -> idx !! k = Some m ->
  exists s, idx' !! k = Some (setSum m s).
Proof.
  intros H Hk. destruct (H k) as [[? ?]|(m0 & s & ? & E)]; [congruence|].
  exists s. congruence.
Qed.

(** ** The second decode loop *)

Lemma attachSums_state dec idx st :
  (attachSums dec idx st).2 = st.
Proof.
  revert idx. induction dec as [|[dl|e] dec IH]; intros idx; simpl; try done.
  destruct (idx !! Path dl); apply IH.
Qed.

Lemma attachSums_sumsOnly dec idx st idx' st' :
  attachSums dec idx st = (Ok idx', st') -> sumsOnly idx idx'.
Proof.
  revert idx. induction dec as [|[dl|e] dec IH]; intros idx; simpl.
  - intros [= <- _]. apply sumsOnly_refl.
  - destruct (idx !! Path dl) as [m|] eqn:E; [|by apply IH].
    intros H%IH. eapply sumsOnly_trans; [|done]. by apply sumsOnly_insert.
  - done.
Qed.

(** ** Collecting and translating *)

Lemma missingSumArgs_filter mods :
  missingSumArgs mods = moduleArg <$> filter (fun m => Sum m = "") mods.
Proof.
  induction mods as [|m mods IH]; simpl; [done|].
  rewrite filter_cons. destruct (decide (Sum m = "")); simpl; by rewrite IH.
Qed.

Lemma translate_eq w mods st :
  translate w mods st =
  (Ok (repoOf w <$> filter (fun m => Sum m <> "") mods),
   add_logs (sumMsg <$> filter (fun m => Sum m = "") mods) st).
Proof.
  revert st. induction mods as [|m mods IH]; intros st; simpl.
  - by rewrite add_logs_nil.
  - rewrite !filter_cons. destruct (decide (Sum m = "")) as [E|E].
    + rewrite decide_False by (by intros ?). unfold bind, logPrintf.
      rewrite IH. simpl. by rewrite add_logs_cons.
    + rewrite decide_True by done. unfold bind. rewrite IH. done.
Qed.

(** ** Sorting *)

Section Sorting.
Context {A : Type} (less : A -> A -> bool).

Lemma insertBy_perm x l : insertBy less x l ≡ₚ x :: l.
Proof.
  induction l as [|y l IH]; simpl; [done|].
  destruct (less y x); [|done]. rewrite IH. apply Permutation_swap.
Qed.

Lemma sort_Slice_perm l : sort_Slice less l ≡ₚ l.
Proof.
  induction l as [|x l IH]; simpl; [done|].
  unfold sort_Slice in *. simpl. rewrite insertBy_perm. by f_equiv.
Qed.

Hypothesis less_asym : forall x y, less x y = true -> less y x = false.
Hypothesis notAfter_trans :
  forall x y z, notAfter less x y -> notAfter less y z -> notAfter less x z.

Lemma insertBy_sorted x l :
  StronglySorted (notAfter less) l -> StronglySorted (notAfter less) (insertBy less x l).
Proof.
  induction 1 as [|y l Hl IH Hy]; simpl.
  - by repeat constructor.
  - destruct (less y x) eqn:E.
    + constructor; [done|]. rewrite insertBy_perm.
      constructor; [|done]. by apply less_asym.
    + constructor; [by constructor|].
      constructor; [done|]. eapply Forall_impl; [done|].
      intros z Hz. by eapply notAfter_trans.
Qed.

Lemma sort_Slice_sorted l : StronglySorted (notAfter less) (sort_Slice less l).
Proof.
  induction l as [|x l IH]; [constructor|].
  unfold sort_Slice in *. simpl. by apply insertBy_sorted.
Qed.
End Sorting.

Lemma ltb_leb (a b : string) : (a <? b)%string = negb (b <=? a)%string.
Proof.
  unfold String.ltb, String.leb. rewrite (String.compare_antisym b a).
  by destruct (a ?= b)%string.
Qed.

Lemma notAfter_nameLe a b : notAfter lessName a b <-> nameLe a b.
Proof.
  unfold notAfter, lessName, nameLe, String.le. rewrite ltb_leb.
  destruct (Repo.Name a <=? Repo.Name b)%string; simpl; naive_solver.
Qed.

Lemma sort_Slice_lessName l : StronglySorted nameLe (sort_Slice lessName l).
Proof.
  assert (StronglySorted (notAfter lessName) (sort_Slice lessName l)) as H.
  { apply sort_Slice_sorted.
    - intros x y. unfold lessName. rewrite !ltb_leb.
      destruct (String.leb_total (Repo.Name x) (Repo.Name y)) as [-> | ->];
        simpl; [done|]. by destruct (Repo.Name x <=? Repo.Name y)%string.
    - intros x y z ?%notAfter_nameLe ?%notAfter_nameLe.
      apply notAfter_nameLe. unfold nameLe in *. by etrans. }
  induction H as [|x l' Hl IH Hx]; constructor; [done|].
  eapply Forall_impl; [done|]. intros y. apply notAfter_nameLe.
Qed.

(** ** Walking the map *)

Lemma elem_of_rangeMap w n idx m :
  range_ok w -> m ∈ rangeMap w n idx <-> exists k, idx !! k = Some m.
Proof.
  intros Hw. unfold rangeMap. rewrite (Hw n (map_to_list idx)).
  rewrite list_elem_of_fmap. split.
  - intros ([k m'] & -> & H%elem_of_map_to_list). by exists k.
  - intros [k H]. exists (k, m). split; [done|]. by apply elem_of_map_to_list.
Qed.

Lemma rangeMap_perm w n idx :
  range_ok w -> rangeMap w n idx ≡ₚ (map_to_list idx).*2.
Proof. intros Hw. unfold rangeMap. by rewrite (Hw n (map_to_list idx)). Qed.

(** ** The last block *)

Lemma translateRepos_eq w idx st :
  translateRepos w idx st =
  (Ok (sort_Slice lessName
         (repoOf w <$> filter (fun m => Sum m <> "") (rangeMap w 1 idx))),
   add_logs (sumMsg <$> filter (fun m => Sum m = "") (rangeMap w 1 idx)) st).
Proof. unfold translateRepos, bind. by rewrite translate_eq. Qed.

Lemma elem_of_translateRepos w idx st d :
  range_ok w ->
  d ∈ match (translateRepos w idx st).1 with Ok repos => repos | Err _ => [] end <->
  exists k m, idx !! k = Some m /\ Sum m <> "" /\ d = repoOf w m.
Proof.
  intros Hw. rewrite translateRepos_eq. simpl.
  rewrite sort_Slice_perm, list_elem_of_fmap. split.
  - intros (m & -> & [? Hin]%list_elem_of_filter).
    apply elem_of_rangeMap in Hin as [k ?]; [|done]. by exists k, m.
  - intros (k & m & ? & ? & ->). exists m. split; [done|].
    apply list_elem_of_filter. split; [done|]. apply elem_of_rangeMap; eauto.
Qed.

(** ** The blocks of a run *)

Lemma downloadSums_sumsOnly w tempDir idx st idx' st' :
  downloadSums w tempDir idx st = (Ok idx', st') -> sumsOnly idx idx'.
Proof.
  unfold downloadSums. destruct (missingSumArgs _) as [|a args].
  - intros [= <- _]. apply sumsOnly_refl.
  - intros (dec & st1 & _ & H)%bind_Ok_inv. by eapply attachSums_sumsOnly.
Qed.

Lemma run_Ok_inv w filename st0 repos :
  (importRepoRulesModules w filename st0).1 = Ok repos ->
  exists mods idx st,
    reachesTranslation w filename st0 mods idx st /\
    (translateRepos w idx st).1 = Ok repos.
Proof.
  unfold importRepoRulesModules.
  destruct (copyGoModToTemp w filename st0) as [[tempDir [e|]] st1] eqn:Hcopy;
    [done|].
  unfold defer.
  destruct (resolveModules w filename tempDir st1) as [r st'] eqn:Hres.
  simpl. intros ->.
  unfold resolveModules in Hres.
  apply bind_Ok_inv in Hres as (idx0 & st3 & Hlist & Hres).
  apply bind_Ok_inv in Hres as (idx1 & st4 & Hload & Hres).
  apply bind_Ok_inv in Hres as (idx & st5 & Hdl & Hres).
  unfold listModules in Hlist.
  apply bind_Ok_inv in Hlist as (dec & st2 & Hrun & Hidx).
  destruct (indexModules_Ok_inv _ _ _ _ _ Hidx) as [mods ->].
  exists mods, idx, st5. split; [|by rewrite Hres].
  exists tempDir, idx1, st4. split; [|done].
  by exists st1, st2, idx0, st3.
Qed.

(** What the first loop leaves in the index, and what later blocks keep. *)
Lemma reachesTranslation_index w filename st0 mods idx st k m :
  reachesTranslation w filename st0 mods idx st ->
  idx !! k = Some m ->
  exists m0, m0 ∈ mods /\ indexed m0 = true /\ indexKey m0 = k /\
             m = setSum m0 (Sum m).
Proof.
  intros (tempDir & idx1 & st4 &
          (st1 & st2 & idx0 & st3 & _ & _ & Hidx & Hload) & Hdl) Hk.
  rewrite indexModules_Ok in Hidx. injection Hidx as <- _.
  unfold loadSums in Hload.
  destruct (ioutil_ReadFile _ _ _) as [[data ?] ?]. injection Hload as <- _.
  apply downloadSums_sumsOnly in Hdl.
  destruct (sumsOnly_Some _ _ _ _ Hdl Hk) as (m1 & Hk1 & E1).
  destruct (sumsOnly_Some _ _ _ _ (sumsOnly_mergeSums _ _) Hk1) as (m0 & Hk0 & E0).
  apply storeModule_elem in Hk0 as [[[? ?]%list_elem_of_filter ?]|?];
    [|by rewrite lookup_empty in *].
  exists m0. split; [done|]. split; [by apply Is_true_true|]. split; [done|].
  rewrite E1, E0. done.
Qed.

(** ** The file system *)

Lemma ancestors_exist_prefix (f : FS) p q :
  ancestors_exist f -> p `prefix_of` q -> is_Some (f !! q) -> is_Some (f !! p).
Proof.
  intros Hf [k ->] Hq. destruct k as [|x k].
  { by rewrite app_nil_r in Hq. }
  destruct Hq as [n Hq]. specialize (Hf _ _ Hq). simpl in Hf.
  rewrite Forall_forall in Hf. specialize (Hf (length p)).
  rewrite take_app_length in Hf. apply Hf.
  apply elem_of_seq. rewrite length_app. simpl. lia.
Qed.

Lemma frame_refl d st : frame d st st.
Proof. split; [done|]. exists []. by rewrite app_nil_r. Qed.

Lemma frame_trans d st1 st2 st3 :
  frame d st1 st2 -> frame d st2 st3 -> frame d st1 st3.
Proof.
  intros [H1 (n1 & E1 & F1)] [H2 (n2 & E2 & F2)]. split.
  - intros p Hp. by rewrite H2, H1.
  - exists (n1 ++ n2). split; [by rewrite E2, E1, app_assoc|].
    by apply Forall_app.
Qed.

Lemma framed_bind {A B} d (m : M A) (k : A -> M B) :
  framed d m -> (forall a, framed d (k a)) -> framed d (bind m k).
Proof.
  intros Hm Hk st. unfold bind. specialize (Hm st).
  destruct (m st) as [[a|e] st1]; [|done].
  eapply frame_trans; [done|]. apply Hk.
Qed.

Lemma framed_ret {A} d (a : A) : framed d (ret a).
Proof. intros st. apply frame_refl. Qed.

Lemma frame_add_log d msg st : frame d st (add_log msg st).
Proof. split; [done|]. exists []. simpl. by rewrite app_nil_r. Qed.

Lemma frame_add_logs d msgs st : frame d st (add_logs msgs st).
Proof. split; [done|]. exists []. simpl. by rewrite app_nil_r. Qed.

Lemma framed_indexModules d dec idx : framed d (indexModules dec idx).
Proof.
  revert idx. induction dec as [|[m|e] dec IH]; intros idx st; simpl;
    try apply frame_refl.
  destruct (Main m); [apply IH|]. destruct (Replace m) as [r|]; [|apply IH].
  destruct (localReplace r); [|apply IH].
  unfold bind, logPrintf. eapply frame_trans; [apply frame_add_log|apply IH].
Qed.

Lemma framed_loadSums w d filename idx : framed d (loadSums w filename idx).
Proof.
  intros st. unfold loadSums, ioutil_ReadFile.
  assert (frame d st (add_op (OpReadFile (Join (DirOf filename) "go.sum")) st)).
  { split; [done|]. exists [OpReadFile (Join (DirOf filename) "go.sum")].
    split; [done|]. constructor; [|done]. by intros p _ []. }
  repeat case_match; by simplify_eq/=.
Qed.

Lemma framed_goListModules w d : tools_confined w -> framed d (run_goListModules w d).
Proof.
  intros Hw st. unfold run_goListModules.
  destruct (goListModules w d (fs st)) as [out f'] eqn:E. simpl. split.
  - intros p Hp. simpl. destruct (Hw d [] (fs st) p Hp) as [H _].
    by rewrite E in H.
  - exists []. simpl. by rewrite app_nil_r.
Qed.

Lemma framed_goModDownload w d args :
  tools_confined w -> framed d (run_goModDownload w d args).
Proof.
  intros Hw st. unfold run_goModDownload.
  destruct (goModDownload w d args (fs st)) as [out f'] eqn:E. simpl. split.
  - intros p Hp. simpl. destruct (Hw d args (fs st) p Hp) as [_ H].
    by rewrite E in H.
  - exists []. simpl. by rewrite app_nil_r.
Qed.

Lemma framed_attachSums d dec idx : framed d (attachSums dec idx).
Proof. intros st. rewrite attachSums_state. apply frame_refl. Qed.

Lemma framed_downloadSums w d idx :
  tools_confined w -> framed d (downloadSums w d idx).
Proof.
  intros Hw. unfold downloadSums. destruct (missingSumArgs _) as [|a args].
  - apply framed_ret.
  - apply framed_bind; [by apply framed_goModDownload|].
    intros dec. apply framed_attachSums.
Qed.

Lemma framed_translateRepos w d idx : framed d (translateRepos w idx).
Proof. intros st. rewrite translateRepos_eq. apply frame_add_logs. Qed.

Lemma framed_resolveModules w d filename :
  tools_confined w -> framed d (resolveModules w filename d).
Proof.
  intros Hw. unfold resolveModules, listModules.
  apply framed_bind.
  { apply framed_bind; [by apply framed_goListModules|].
    intros dec. apply framed_indexModules. }
  intros idx0. apply framed_bind; [apply framed_loadSums|].
  intros idx1. apply framed_bind; [by apply framed_downloadSums|].
  intros idx2. apply framed_translateRepos.
Qed.

Lemma frame_RemoveAll d st : frame d st (os_RemoveAll d st).
Proof.
  split.
  - intros p Hp. simpl. rewrite map_lookup_filter.
    destruct (fs st !! p) as [n|]; simpl; [|done].
    by rewrite option_guard_True.
  - exists [OpRemoveAll d]. split; [done|]. constructor; [|done].
    intros p Hp. done.
Qed.

Lemma frame_Remove d st : frame d st (os_Remove d st).
Proof.
  assert (forall p, ¬ d `prefix_of` p -> d <> p) as Hne by (by intros p Hp ->).
  unfold os_Remove. case_decide.
  - split.
    + intros p Hp. simpl. rewrite lookup_delete_ne; [done|]. by apply Hne.
    + exists [OpRemove d]. split; [done|]. constructor; [|done]. apply Hne.
  - split; [done|].
    exists [OpRemove d]. split; [done|]. constructor; [|done]. apply Hne.
Qed.

Lemma not_prefix_Join d name p : ¬ d `prefix_of` p -> Join d name <> p.
Proof. intros Hp <-. apply Hp. by apply prefix_app_r. Qed.

Lemma frame_Create w d name st : frame d st (os_Create w (Join d name) st).2.
Proof.
  unfold os_Create. destruct (create_fault w); simpl.
  - split; [done|]. exists [OpCreate (Join d name)]. split; [done|].
    constructor; [|done]. intros p. apply not_prefix_Join.
  - split.
    + intros p Hp. simpl. rewrite lookup_insert_ne; [done|].
      by apply not_prefix_Join.
    + exists [OpCreate (Join d name)]. split; [done|].
      constructor; [|done]. intros p. apply not_prefix_Join.
Qed.

Lemma frame_Copy w d name src st : frame d st (io_Copy w (Join d name) src st).2.
Proof.
  unfold io_Copy. destruct (copy_fault w); [apply frame_refl|].
  destruct src; [|apply frame_refl]. split.
  - intros p Hp. simpl. rewrite lookup_insert_ne; [done|].
    by apply not_prefix_Join.
  - exists []. simpl. by rewrite app_nil_r.
Qed.

Lemma frame_TempDir w d st st' :
  ioutil_TempDir w st = (Ok d, st') -> fs st !! d = None /\ frame d st st'.
Proof.
  unfold ioutil_TempDir. destruct (tempdir_choice w) as [d'|]; [|done].
  destruct (fs st !! d') eqn:E; [done|]. intros [= -> <-].
  split; [done|]. split.
  - intros p Hp. simpl. rewrite lookup_insert_ne; [done|]. by intros ->.
  - exists [OpMkdirTemp d]. split; [done|]. constructor; [|done].
    intros p Hp. simpl. by intros ->.
Qed.

(** The run changes nothing, or works below a directory that did not
    exist when it started. *)
Lemma run_frame w filename st0 :
  tools_confined w ->
  let out := importRepoRulesModules w filename st0 in
  (fs out.2 = fs st0 /\ ops out.2 = ops st0 ++ [OpOpen filename]) \/
  (exists d, is_Some (fs st0 !! filename) /\ fs st0 !! d = None /\
             frame d (add_op (OpOpen filename) st0) out.2).
Proof.
  intros Hw. unfold importRepoRulesModules, copyGoModToTemp, os_Open.
  destruct (open_fault w) as [e|]; [by left|].
  destruct (fs st0 !! filename) as [n|] eqn:Hfile; [|by left].
  set (st1 := add_op (OpOpen filename) st0).
  destruct (ioutil_TempDir w st1) as [[d|e] st2] eqn:Htemp.
  2:{ left. unfold ioutil_TempDir in Htemp.
      destruct (tempdir_choice w) as [d'|]; [|by simplify_eq].
      destruct (fs st1 !! d'); by simplify_eq. }
  apply frame_TempDir in Htemp as [Hfresh Hf2].
  right. exists d. split; [by eexists|]. split; [done|].
  pose proof (frame_Create w d "go.mod" st2) as Hf3.
  destruct (os_Create w (Join d "go.mod") st2) as [[[]|e] st3]; simpl in Hf3.
  2:{ simpl. eapply frame_trans; [done|]. eapply frame_trans; [done|].
      apply frame_Remove. }
  pose proof (frame_Copy w d "go.mod" n st3) as Hf4.
  destruct (io_Copy w (Join d "go.mod") n st3) as [[[]|e] st4]; simpl in Hf4.
  2:{ simpl. eapply frame_trans; [done|]. eapply frame_trans; [done|].
      eapply frame_trans; [done|]. apply frame_RemoveAll. }
  assert (frame d st1 st4) as Hf.
  { eapply frame_trans; [done|]. by eapply frame_trans. }
  destruct (close_fault w) as [e|]; [done|].
  unfold defer.
  pose proof (framed_resolveModules w d filename Hw st4) as Hres.
  destruct (resolveModules w filename d st4) as [r st5]. simpl in *.
  eapply frame_trans; [done|]. eapply frame_trans; [done|].
  apply frame_RemoveAll.
Qed.

(** * The claims *)

(** ** C1: the manifest is left alone *)

(** When [copyGoModToTemp] returns no error, its directory is new and
    the go.mod in it has the contents of the manifest. *)
Lemma copyGoModToTemp_copy w filename st0 tempDir st1 :
  copyGoModToTemp w filename st0 = ((tempDir, None), st1) ->
  fs st0 !! tempDir = None /\
  fs st1 !! tempDir = Some Dir /\
  exists c, fs st0 !! filename = Some (File c) /\
            fs st1 !! Join tempDir "go.mod" = Some (File c).
Proof.
  unfold copyGoModToTemp, os_Open, ioutil_TempDir, os_Create, io_Copy.
  destruct (open_fault w); [done|].
  destruct (fs st0 !! filename) as [n|] eqn:Hfile; [|done].
  destruct (tempdir_choice w) as [d|]; [|done]. simpl.
  destruct (fs st0 !! d) eqn:Hd; [done|].
  destruct (create_fault w); [done|].
  destruct (copy_fault w); [done|].
  destruct n as [c|]; [|done].
  intros [= <- _ <-]. simpl. split; [done|].
  assert (d <> Join d "go.mod") as Hne.
  { intros E. apply (f_equal length) in E. unfold Join in E.
    rewrite length_app in E. simpl in E. lia. }
  split.
  - by rewrite !lookup_insert_ne, lookup_insert_eq by done.
  - exists c. split; [done|]. by rewrite lookup_insert_eq.
Qed.

(** C1: whatever the run returns, the entry at the manifest's path is
    afterwards what it was before, and none of the run's own calls of
    the file system creates, opens for writing or removes it: the
    manifest is opened by [os.Open] only, and what is written is a copy
    of it in a directory that did not exist before.  The file system
    is a tree and the [go] tool writes below its working directory
    only. *)
Theorem manifest_left_alone (w : World) (filename : path) (st0 : state) :
  ancestors_exist (fs st0) ->
  tools_confined w ->
  let out := importRepoRulesModules w filename st0 in
  fs out.2 !! filename = fs st0 !! filename /\
  (exists new, ops out.2 = ops st0 ++ new /\
               Forall (fun op => ¬ writes op filename) new) /\
  (forall tempDir st1,
     copyGoModToTemp w filename st0 = ((tempDir, None), st1) ->
     fs st0 !! tempDir = None /\
     ¬ tempDir `prefix_of` filename /\
     fs st1 !! Join tempDir "go.mod" = fs st0 !! filename).
Proof.
  intros Htree Hw out. split; [|split].
  - destruct (run_frame w filename st0 Hw) as [[Hfs _]|(d & Hfile & Hd & Hf)].
    + fold out in Hfs. by rewrite Hfs.
    + fold out in Hf. destruct Hf as [Hfs _]. rewrite Hfs; [done|].
      intros Hpre. destruct (ancestors_exist_prefix _ _ _ Htree Hpre Hfile).
      congruence.
  - destruct (run_frame w filename st0 Hw) as [[_ Hops]|(d & Hfile & Hd & Hf)].
    + fold out in Hops. exists [OpOpen filename]. split; [done|].
      constructor; [|done]. by intros [].
    + fold out in Hf. assert (¬ d `prefix_of` filename) as Hout.
      { intros Hpre. destruct (ancestors_exist_prefix _ _ _ Htree Hpre Hfile).
        congruence. }
      destruct Hf as [_ (new & Hops & Hnew)].
      exists (OpOpen filename :: new). split.
      * rewrite Hops. simpl. by rewrite <- app_assoc.
      * constructor; [by intros []|].
        eapply Forall_impl; [done|]. intros op Hop. by apply Hop.
  - intros tempDir st1 Hcopy.
    destruct (copyGoModToTemp_copy _ _ _ _ _ Hcopy) as (Hd & _ & c & Hc & Hcp).
    split; [done|]. split; [|by rewrite Hc].
    intros Hpre. destruct (ancestors_exist_prefix _ _ _ Htree Hpre) as [? ?];
      [by eexists|]. congruence.
Qed.

Lemma sample_tools_confined : tools_confined sampleWorld.
Proof.
  intros dir args f p Hp. simpl. split; [|done].
  rewrite lookup_insert_ne; [done|]. by apply not_prefix_Join.
Qed.

Lemma manifest_left_alone_witness :
  let out := importRepoRulesModules sampleWorld sampleManifest rootedState in
  fs out.2 !! sampleManifest = fs rootedState !! sampleManifest /\
  (exists new, ops out.2 = ops rootedState ++ new /\
               Forall (fun op => ¬ writes op sampleManifest) new) /\
  (forall tempDir st1,
     copyGoModToTemp sampleWorld sampleManifest rootedState =
       ((tempDir, None), st1) ->
     fs rootedState !! tempDir = None /\
     ¬ tempDir `prefix_of` sampleManifest /\
     fs st1 !! Join tempDir "go.mod" = fs rootedState !! sampleManifest).
Proof.
  apply (manifest_left_alone sampleWorld sampleManifest rootedState).
  - unfold ancestors_exist. apply (bool_decide_unpack _). by vm_compute.
  - exact sample_tools_confined.
Defined.

Example sample_ops :
  ops (importRepoRulesModules sampleWorld sampleManifest rootedState).2 =
  [ OpOpen ["work"; "go.mod"];
    OpMkdirTemp sampleTemp;
    OpCreate ["tmp"; "gazelle-temp-gomod1"; "go.mod"];
    OpReadFile ["work"; "go.sum"];
    OpRemoveAll sampleTemp ].
Proof. by vm_compute. Qed.

(** ** C2: the temporary directory *)

Lemma RemoveAll_gone d st p :
  d `prefix_of` p -> fs (os_RemoveAll d st) !! p = None.
Proof.
  intros Hp. simpl. apply map_lookup_filter_None. right.
  intros n _. simpl. by intros [].
Qed.

(** On every path but one the directory of the run is gone when the
    run returns: if closing the copy does not fail, nothing is left at
    or below the name [ioutil.TempDir] picks. *)
Lemma tempdir_gone_unless_close_fails w filename st0 d :
  ancestors_exist (fs st0) ->
  tempdir_choice w = Ok d ->
  fs st0 !! d = None ->
  close_fault w = None ->
  forall p, d `prefix_of` p ->
    fs (importRepoRulesModules w filename st0).2 !! p = None.
Proof.
  intros Htree Hd Hfree Hclose p Hp.
  assert (forall q, d `prefix_of` q -> fs st0 !! q = None) as Hbelow.
  { intros q Hq. destruct (fs st0 !! q) eqn:E; [|done].
    destruct (ancestors_exist_prefix _ _ _ Htree Hq) as [? ?]; [by eexists|].
    congruence. }
  unfold importRepoRulesModules, copyGoModToTemp, os_Open.
  destruct (open_fault w) as [e|]; [by apply Hbelow|].
  destruct (fs st0 !! filename) as [n|] eqn:Hfile; [|by apply Hbelow].
  unfold ioutil_TempDir. rewrite Hd. simpl. rewrite Hfree.
  unfold os_Create. destruct (create_fault w) as [e|].
  - unfold os_Remove. simpl. rewrite decide_True.
    + simpl. destruct (decide (d = p)) as [->|Hne].
      * apply lookup_delete_eq.
      * rewrite lookup_delete_ne, lookup_insert_ne by done. by apply Hbelow.
    + intros q x. destruct (decide (d = q)) as [->|Hne]; [done|].
      rewrite lookup_insert_ne by done. intros Hq Hpre.
      rewrite Hbelow in Hq; done.
  - unfold io_Copy. destruct (copy_fault w) as [e|].
    + by apply RemoveAll_gone.
    + destruct n as [c|]; [|by apply RemoveAll_gone].
      rewrite Hclose. unfold defer.
      destruct (resolveModules _ _ _ _) as [r st5]. by apply RemoveAll_gone.
Qed.

(** C2 fails on one path.  When the manifest is copied and closing
    the copy reports an error, [copyGoModToTemp] returns the directory
    together with the error, the run returns the error before its
    [defer os.RemoveAll(tempDir)], and the directory stays behind with
    the copy in it: no call removes it. *)
Theorem close_failure_leaves_tempdir (w : World) (filename : path)
    (st0 : state) (c : string) (d : path) (e : error) :
  open_fault w = None ->
  fs st0 !! filename = Some (File c) ->
  tempdir_choice w = Ok d ->
  fs st0 !! d = None ->
  create_fault w = None ->
  copy_fault w = None ->
  close_fault w = Some e ->
  let out := importRepoRulesModules w filename st0 in
  out.1 = Err e /\
  fs out.2 !! d = Some Dir /\
  fs out.2 !! Join d "go.mod" = Some (File c) /\
  ops out.2 = ops st0 ++
    [OpOpen filename; OpMkdirTemp d; OpCreate (Join d "go.mod")].
Proof.
  intros Hopen Hfile Hd Hfree Hcreate Hcopy Hclose.
  unfold importRepoRulesModules, copyGoModToTemp, os_Open.
  rewrite Hopen, Hfile. unfold ioutil_TempDir. rewrite Hd. simpl.
  rewrite Hfree. unfold os_Create. rewrite Hcreate.
  unfold io_Copy. rewrite Hcopy, Hclose. simpl.
  assert (d <> Join d "go.mod") as Hne.
  { intros E. apply (f_equal length) in E. unfold Join in E.
    rewrite length_app in E. simpl in E. lia. }
  split; [done|]. split; [|split].
  - by rewrite !lookup_insert_ne, lookup_insert_eq by done.
  - by rewrite lookup_insert_eq.
  - by rewrite <- !app_assoc.
Qed.

Lemma close_failure_leaves_tempdir_witness :
  let out := importRepoRulesModules closeFailWorld sampleManifest rootedState in
  out.1 = Err "input/output error" /\
  fs out.2 !! sampleTemp = Some Dir /\
  fs out.2 !! Join sampleTemp "go.mod" = Some (File "module example.com/me") /\
  ops out.2 = ops rootedState ++
    [OpOpen sampleManifest; OpMkdirTemp sampleTemp;
     OpCreate (Join sampleTemp "go.mod")].
Proof.
  apply (close_failure_leaves_tempdir closeFailWorld sampleManifest rootedState
           "module example.com/me" sampleTemp "input/output error");
    by vm_compute.
Defined.

(** ** C3: merging the ledger *)

(** C3, as stated, fails: the ledger is matched by path alone.  The
    module a.com/x at v1.0.0 has the ledger entry
    (a.com/x, v1.0.0, h1:aaa) of its own path and version, and the
    merge leaves it with h1:old, the sum of a later entry for the same
    path at another version. *)
Lemma ledger_match_ignores_version :
  let m := {| Path := "a.com/x"; Version := "v1.0.0"; Sum := "";
              Main := false; Replace := None |} in
  let data := "a.com/x v1.0.0 h1:aaa" +:+ nl +:+
              "a.com/x v0.9.0 h1:old" +:+ nl in
  ("a.com/x", "v1.0.0", "h1:aaa") ∈ ledgerEntries data /\
  mergeSums data {["a.com/x" := m]} !! "a.com/x" = Some (setSum m "h1:old").
Proof.
  split.
  - vm_compute. by left.
  - by vm_compute.
Qed.

(** C3, amended: the merge matches a well-formed ledger entry that is
    not a go.mod hash to the module stored under the entry's path,
    whatever the entry's version.  A module with such an entry under
    its key ends with the sum of the last one, which is not empty, and
    is not among the records collected for the recovery call. *)
Theorem ledger_merge_by_path (w : World) (data : string) (idx : index)
    (k : string) (m : module) (v0 s0 : string) :
  idx !! k = Some m ->
  (k, v0, s0) ∈ ledgerEntries data ->
  exists (es1 : list (string * string * string)) v s es2,
    ledgerEntries data = (es1 ++ (k, v, s) :: es2)%list /\
    (forall v' s', (k, v', s') ∉ es2) /\
    mergeSums data idx !! k = Some (setSum m s) /\
    s <> "" /\
    setSum m s ∉ collected w (mergeSums data idx).
Proof.
  intros Hk Hin.
  destruct (lastSumFor_is_Some _ _ _ _ Hin) as [s Hs].
  destruct (lastSumFor_last _ _ _ Hs) as (es1 & v & es2 & Hes & Hno).
  assert (s <> "") as Hne.
  { apply (ledgerEntries_sum_nonempty data k v). rewrite Hes.
    apply elem_of_app. right. by left. }
  exists es1, v, s, es2. repeat split; try done.
  - by rewrite mergeSums_lookup, Hk, Hs.
  - unfold collected. by intros [? _]%list_elem_of_filter.
Qed.

Lemma ledger_merge_by_path_witness :
  let m := {| Path := "a.com/x"; Version := "v1.0.0"; Sum := "";
              Main := false; Replace := None |} in
  let data := "a.com/x v1.0.0 h1:aaa" +:+ nl +:+
              "a.com/x v0.9.0 h1:old" +:+ nl in
  exists (es1 : list (string * string * string)) v s es2,
    ledgerEntries data = (es1 ++ ("a.com/x", v, s) :: es2)%list /\
    (forall v' s', ("a.com/x", v', s') ∉ es2) /\
    mergeSums data {["a.com/x" := m]} !! "a.com/x" = Some (setSum m s) /\
    s <> "" /\
    setSum m s ∉ collected
      {| open_fault := None; tempdir_choice := Ok ["tmp"; "gazelle-temp-gomod1"];
         create_fault := None; copy_fault := None; close_fault := None;
         read_fault := None;
         goListModules := fun _ f => (Ok [], f);
         goModDownload := fun _ _ f => (Ok [], f);
         mapOrder := fun _ l => l;
         ImportPathToBazelRepoName := fun p => p |}
      (mergeSums data {["a.com/x" := m]}).
Proof.
  intros m data.
  apply (ledger_merge_by_path _ data {["a.com/x" := m]} "a.com/x" m
           "v1.0.0" "h1:aaa").
  - reflexivity.
  - vm_compute. left.
Defined.

(** ** C4: the recovery call *)

Lemma downloadSums_calls w tempDir idx st :
  calls (downloadSums w tempDir idx st).2 =
  calls st ++
    match missingSumArgs (rangeMap w 0 idx) with
    | [] => []
    | args => [CallDownload tempDir args]
    end.
Proof.
  unfold downloadSums. destruct (missingSumArgs _) as [|a args].
  - simpl. by rewrite app_nil_r.
  - unfold bind, run_goModDownload.
    destruct (goModDownload w tempDir (a :: args) (fs st)) as [[dec|e] fs'];
      [|done].
    by rewrite attachSums_state.
Qed.

Lemma copyGoModToTemp_calls w filename st :
  calls (copyGoModToTemp w filename st).2 = calls st.
Proof.
  unfold copyGoModToTemp, os_Open, ioutil_TempDir, os_Create, io_Copy,
    os_Remove, os_RemoveAll.
  repeat (case_match; simplify_eq/=; try done).
Qed.

Lemma translateRepos_calls w idx st :
  calls (translateRepos w idx st).2 = calls st.
Proof. by rewrite translateRepos_eq. Qed.

Lemma indexModules_calls dec idx st :
  calls (indexModules dec idx st).2 = calls st.
Proof.
  revert idx st. induction dec as [|[m|e] dec IH]; intros idx st; simpl;
    try done.
  destruct (Main m); [done|]. destruct (Replace m) as [r|]; [|done].
  destruct (localReplace r); [|done].
  unfold bind, logPrintf. by rewrite IH.
Qed.

Lemma loadSums_calls w filename idx st :
  calls (loadSums w filename idx st).2 = calls st.
Proof.
  unfold loadSums, ioutil_ReadFile.
  repeat (case_match; simplify_eq/=; try done).
Qed.

(** What is left of the run after the merge. *)
Lemma run_after_merge w filename st0 tempDir mods idx st :
  reachesMerge w filename st0 tempDir mods idx st ->
  importRepoRulesModules w filename st0 =
  defer (os_RemoveAll tempDir)
    (do idx' <- downloadSums w tempDir idx; translateRepos w idx') st.
Proof.
  intros (st1 & st2 & idx0 & st3 & Hcopy & Hrun & Hidx & Hload).
  unfold importRepoRulesModules. rewrite Hcopy.
  unfold defer, resolveModules, listModules.
  unfold bind at 1. unfold bind at 1. rewrite Hrun, Hidx.
  unfold bind at 1. rewrite Hload. done.
Qed.

(** C4: after the merge, the records whose sum is still empty are the
    ones collected, each once; each gives one argument, replacement
    path and version joined by an at sign if the record has a
    replacement, its own path and version otherwise; and the run calls
    [go mod download] once, with all the arguments, if there are any,
    and not at all if there are none. *)
Theorem recovery_call_batch (w : World) (filename : path) (st0 : state)
    (tempDir : path) (mods : list module) (idx : index) (st : state) :
  range_ok w ->
  reachesMerge w filename st0 tempDir mods idx st ->
  let args := missingSumArgs (rangeMap w 0 idx) in
  args ≡ₚ moduleArg <$> filter (fun m => Sum m = "") (map_to_list idx).*2 /\
  (forall k m, idx !! k = Some m -> Sum m = "" ->
     match Replace m with
     | Some r => Repl.Path r +:+ "@" +:+ Repl.Version r
     | None => Path m +:+ "@" +:+ Version m
     end ∈ args) /\
  calls (importRepoRulesModules w filename st0).2 =
    calls st0 ++ CallList tempDir ::
      match args with
      | [] => []
      | _ => [CallDownload tempDir args]
      end.
Proof.
  intros Hw Hreach args. split; [|split].
  - unfold args. rewrite missingSumArgs_filter.
    by rewrite (rangeMap_perm w 0 idx Hw).
  - intros k m Hk Hsum. unfold args. rewrite missingSumArgs_filter.
    apply list_elem_of_fmap. exists m. split; [done|].
    apply list_elem_of_filter. split; [done|].
    apply elem_of_rangeMap; eauto.
  - rewrite (run_after_merge _ _ _ _ _ _ _ Hreach).
    destruct Hreach as (st1 & st2 & idx0 & st3 & Hcopy & Hrun & Hidx & Hload).
    assert (calls st = calls st0 ++ [CallList tempDir]) as Hcalls.
    { pose proof (loadSums_calls w filename idx0 st3) as H1.
      rewrite Hload in H1. simpl in H1. rewrite H1.
      pose proof (indexModules_calls (Ok <$> mods) ∅ st2) as H2.
      rewrite Hidx in H2. simpl in H2. rewrite H2.
      unfold run_goListModules in Hrun.
      destruct (goListModules w tempDir (fs st1)) as [out fs'].
      injection Hrun as _ <-. simpl.
      pose proof (copyGoModToTemp_calls w filename st0) as H3.
      rewrite Hcopy in H3. simpl in H3. by rewrite H3. }
    unfold defer, bind.
    pose proof (downloadSums_calls w tempDir idx st) as Hdl.
    destruct (downloadSums w tempDir idx st) as [[idx'|e] st5]; simpl in Hdl.
    + pose proof (translateRepos_calls w idx' st5) as Htr.
      destruct (translateRepos w idx' st5) as [r st6]. simpl in *.
      rewrite Htr, Hdl, Hcalls, <- app_assoc. unfold args.
      by destruct (missingSumArgs _).
    + simpl. rewrite Hdl, Hcalls, <- app_assoc. unfold args.
      by destruct (missingSumArgs _).
Qed.

Lemma sample_range_ok : range_ok sampleWorld.
Proof. intros n l. reflexivity. Qed.

Lemma recovery_call_batch_witness :
  exists idx st,
    reachesMerge sampleWorld sampleManifest sampleState sampleTemp
      sampleModules idx st /\
    let args := missingSumArgs (rangeMap sampleWorld 0 idx) in
    args ≡ₚ moduleArg <$> filter (fun m => Sum m = "") (map_to_list idx).*2 /\
    (forall k m, idx !! k = Some m -> Sum m = "" ->
       match Replace m with
       | Some r => Repl.Path r +:+ "@" +:+ Repl.Version r
       | None => Path m +:+ "@" +:+ Version m
       end ∈ args) /\
    calls (importRepoRulesModules sampleWorld sampleManifest sampleState).2 =
      calls sampleState ++ CallList sampleTemp ::
        match args with
        | [] => []
        | _ => [CallDownload sampleTemp args]
        end.
Proof.
  eassert (reachesMerge sampleWorld sampleManifest sampleState sampleTemp
             sampleModules _ _) as H.
  { eexists _, _, _, _. repeat split; reflexivity. }
  eexists _, _. split; [exact H|].
  exact (recovery_call_batch sampleWorld sampleManifest sampleState
           sampleTemp sampleModules _ _ sample_range_ok H).
Defined.

Example sample_run :
  (importRepoRulesModules sampleWorld sampleManifest sampleState).1 =
  Ok [ Repo.mk "a.com/x" "a.com/x" "v1.0.0" "h1:aaa" "";
       Repo.mk "b.com/y" "b.com/y" "v2.0.0" "h1:bbb" "";
       Repo.mk "c.com/z" "c.com/z" "v2.0.0" "h1:ddd" "d.com/z" ] /\
  calls (importRepoRulesModules sampleWorld sampleManifest sampleState).2 =
  [CallList sampleTemp; CallDownload sampleTemp ["b.com/y@v2.0.0"]].
Proof. split; vm_compute; reflexivity. Qed.

(** ** C5: the order of the returned list *)

(** C5, as stated, fails.  First run: two listed records of declared
    path example.com/a, one of them replaced and so stored under
    another key, both come out under one derived name, though the
    naming function is injective, so the list is not strictly
    ascending.  Second run: two modules of distinct import paths get
    one derived name from a naming function that is not injective, and
    both come out.  In either run nothing is logged and the run
    succeeds; which of the two descriptors comes first is up to the
    order of the map walk. *)
Lemma output_names_coincide :
  (let out := importRepoRulesModules twinWorld sampleManifest twinState in
   out.1 = Ok [ Repo.mk "example.com/a" "example.com/a" "v1.0.0" "h1:aaa" "";
                Repo.mk "example.com/a" "example.com/a" "v1.1.0" "h1:bbb"
                  "example.com/b" ] /\
   logs out.2 = [] /\
   ~ StronglySorted nameLt
       [ Repo.mk "example.com/a" "example.com/a" "v1.0.0" "h1:aaa" "";
         Repo.mk "example.com/a" "example.com/a" "v1.1.0" "h1:bbb"
           "example.com/b" ]) /\
  (let out := importRepoRulesModules caseWorld sampleManifest caseState in
   out.1 = Ok [ Repo.mk "github.com/sirupsen/logrus" "github.com/sirupsen/logrus"
                  "v1.4.2" "h1:new" "";
                Repo.mk "github.com/sirupsen/logrus" "github.com/Sirupsen/logrus"
                  "v1.0.0" "h1:old" "" ] /\
   logs out.2 = [] /\
   ~ StronglySorted nameLt
       [ Repo.mk "github.com/sirupsen/logrus" "github.com/sirupsen/logrus"
           "v1.4.2" "h1:new" "";
         Repo.mk "github.com/sirupsen/logrus" "github.com/Sirupsen/logrus"
           "v1.0.0" "h1:old" "" ]).
Proof.
  split; (split; [by vm_compute|]); (split; [by vm_compute|]);
    intros H; inversion H as [|? ? _ Hall]; subst;
    apply Forall_cons in Hall as [Hlt _]; by vm_compute in Hlt.
Qed.

Lemma nameLe_ne_nameLt a b :
  nameLe a b -> Repo.Name a <> Repo.Name b -> nameLt a b.
Proof.
  unfold nameLe, nameLt, String.le. rewrite ltb_leb. intros Hab Hne.
  destruct (Repo.Name b <=? Repo.Name a)%string eqn:E; [|done].
  destruct Hne. apply String.leb_antisym; [|done]. by apply Is_true_true.
Qed.

Lemma sorted_NoDup_strict (l : list Repo.t) :
  StronglySorted nameLe l -> NoDup (Repo.Name <$> l) -> StronglySorted nameLt l.
Proof.
  induction 1 as [|a l Hl IH Ha]; [constructor|].
  rewrite fmap_cons. intros [Hnotin Hnd]%NoDup_cons.
  constructor; [by apply IH|].
  apply Forall_forall. intros b Hb. apply nameLe_ne_nameLt.
  - by eapply Forall_forall in Ha.
  - intros E. apply Hnotin. rewrite E. apply list_elem_of_fmap. eauto.
Qed.

Lemma names_NoDup w (idx : index) :
  (forall k1 k2 m1 m2, idx !! k1 = Some m1 -> idx !! k2 = Some m2 ->
     ImportPathToBazelRepoName w (Path m1) = ImportPathToBazelRepoName w (Path m2) ->
     k1 = k2) ->
  NoDup (Repo.Name <$>
           (repoOf w <$> filter (fun m => Sum m <> "") (map_to_list idx).*2)).
Proof.
  intros Hinj. rewrite <- list_fmap_compose.
  assert (forall m1 m2, m1 ∈ (map_to_list idx).*2 -> m2 ∈ (map_to_list idx).*2 ->
            ImportPathToBazelRepoName w (Path m1) =
            ImportPathToBazelRepoName w (Path m2) -> m1 = m2) as Hinj'.
  { intros m1 m2 ([k1 ?] & -> & H1%elem_of_map_to_list)%list_elem_of_fmap
      ([k2 ?] & -> & H2%elem_of_map_to_list)%list_elem_of_fmap E. simpl in *.
    assert (k1 = k2) as -> by eauto. congruence. }
  apply NoDup_fmap_2_strong.
  - intros m1 m2 [_ H1]%list_elem_of_filter [_ H2]%list_elem_of_filter E.
    by apply Hinj'.
  - apply NoDup_filter. apply NoDup_fmap_2_strong; [|apply NoDup_map_to_list].
    intros [k1 m1] [k2 m2] H1%elem_of_map_to_list H2%elem_of_map_to_list E.
    simpl in E. subst m2. f_equal. eauto.
Qed.

(** C5, amended: the returned list is in ascending order of derived
    name, equal names allowed.  It holds the descriptor of every
    indexed record that has a sum, those of equal derived name
    included: names are not compared for equality anywhere.  The order
    is strict when no two indexed records have the same derived name. *)
Theorem output_sorted_by_name (w : World) (filename : path) (st0 : state)
    (repos : list Repo.t) :
  range_ok w ->
  (importRepoRulesModules w filename st0).1 = Ok repos ->
  StronglySorted nameLe repos /\
  exists mods idx st,
    reachesTranslation w filename st0 mods idx st /\
    repos ≡ₚ repoOf w <$> filter (fun m => Sum m <> "") (map_to_list idx).*2 /\
    ((forall k1 k2 m1 m2, idx !! k1 = Some m1 -> idx !! k2 = Some m2 ->
        ImportPathToBazelRepoName w (Path m1) =
        ImportPathToBazelRepoName w (Path m2) -> k1 = k2) ->
     StronglySorted nameLt repos).
Proof.
  intros Hw Hrun.
  destruct (run_Ok_inv _ _ _ _ Hrun) as (mods & idx & st & Hreach & Htr).
  rewrite translateRepos_eq in Htr. simpl in Htr. injection Htr as <-.
  assert (sort_Slice lessName
            (repoOf w <$> filter (fun m => Sum m <> "") (rangeMap w 1 idx)) ≡ₚ
          repoOf w <$> filter (fun m => Sum m <> "") (map_to_list idx).*2) as Hperm.
  { rewrite sort_Slice_perm. by rewrite (rangeMap_perm w 1 idx Hw). }
  split; [apply sort_Slice_lessName|].
  exists mods, idx, st. split; [done|]. split; [done|].
  intros Hinj. apply sorted_NoDup_strict; [apply sort_Slice_lessName|].
  rewrite Hperm. by apply names_NoDup.
Qed.

Lemma output_sorted_by_name_witness :
  let repos := [ Repo.mk "a.com/x" "a.com/x" "v1.0.0" "h1:aaa" "";
                 Repo.mk "b.com/y" "b.com/y" "v2.0.0" "h1:bbb" "";
                 Repo.mk "c.com/z" "c.com/z" "v2.0.0" "h1:ddd" "d.com/z" ] in
  StronglySorted nameLe repos /\
  exists mods idx st,
    reachesTranslation sampleWorld sampleManifest sampleState mods idx st /\
    repos ≡ₚ repoOf sampleWorld <$>
               filter (fun m => Sum m <> "") (map_to_list idx).*2 /\
    ((forall k1 k2 m1 m2, idx !! k1 = Some m1 -> idx !! k2 = Some m2 ->
        ImportPathToBazelRepoName sampleWorld (Path m1) =
        ImportPathToBazelRepoName sampleWorld (Path m2) -> k1 = k2) ->
     StronglySorted nameLt repos).
Proof.
  apply (output_sorted_by_name sampleWorld sampleManifest sampleState).
  - intros n l. reflexivity.
  - vm_compute. reflexivity.
Defined.

(** ** C6, C9: descriptors of replaced modules *)

Lemma elem_of_repos w filename st0 repos mods idx st d :
  range_ok w ->
  reachesTranslation w filename st0 mods idx st ->
  (translateRepos w idx st).1 = Ok repos ->
  d ∈ repos <-> exists k m, idx !! k = Some m /\ Sum m <> "" /\ d = repoOf w m.
Proof.
  intros Hw _ Htr. rewrite <- (elem_of_translateRepos w idx st d Hw).
  by rewrite Htr.
Qed.

(** C6: a module with a replacement by path P at version V that comes
    out has a descriptor of version V, not its declared version, and
    of redirect P; P is not a file path. *)
Theorem override_version_and_redirect (w : World) (filename : path)
    (st0 : state) (repos : list Repo.t) :
  range_ok w ->
  (importRepoRulesModules w filename st0).1 = Ok repos ->
  exists mods idx st,
    reachesTranslation w filename st0 mods idx st /\
    (forall k m r, idx !! k = Some m -> Replace m = Some r -> Sum m <> "" ->
       localReplace r = false /\
       exists d, d ∈ repos /\ d = repoOf w m /\
         Repo.Version d = Repl.Version r /\
         Repo.Replace d = Repl.Path r /\
         (Version m <> Repl.Version r -> Repo.Version d <> Version m)) /\
    (forall d, d ∈ repos ->
       exists k m, idx !! k = Some m /\ d = repoOf w m /\
         forall r, Replace m = Some r ->
           Repo.Version d = Repl.Version r /\ Repo.Replace d = Repl.Path r).
Proof.
  intros Hw Hrun.
  destruct (run_Ok_inv _ _ _ _ Hrun) as (mods & idx & st & Hreach & Htr).
  exists mods, idx, st. split; [done|]. split.
  - intros k m r Hk Hr Hsum. split.
    + destruct (reachesTranslation_index _ _ _ _ _ _ _ _ Hreach Hk)
        as (m0 & _ & Hidx & _ & E).
      rewrite E in Hr. simpl in Hr.
      unfold indexed, hasLocalReplace in Hidx. rewrite Hr in Hidx.
      by destruct (Main m0), (localReplace r).
    + exists (repoOf w m). split.
      { apply (elem_of_repos w filename st0 repos mods idx st); eauto. }
      unfold repoOf. rewrite Hr. simpl. repeat split; congruence.
  - intros d Hd.
    apply (elem_of_repos w filename st0 repos mods idx st) in Hd
      as (k & m & Hk & _ & ->); [|done..].
    exists k, m. split; [done|]. split; [done|].
    intros r Hr. unfold repoOf. by rewrite Hr.
Qed.

Lemma override_version_and_redirect_witness :
  exists mods idx st,
    reachesTranslation sampleWorld sampleManifest sampleState mods idx st /\
    (forall k m r, idx !! k = Some m -> Replace m = Some r -> Sum m <> "" ->
       localReplace r = false /\
       exists d,
         d ∈ [ Repo.mk "a.com/x" "a.com/x" "v1.0.0" "h1:aaa" "";
               Repo.mk "b.com/y" "b.com/y" "v2.0.0" "h1:bbb" "";
               Repo.mk "c.com/z" "c.com/z" "v2.0.0" "h1:ddd" "d.com/z" ] /\
         d = repoOf sampleWorld m /\
         Repo.Version d = Repl.Version r /\
         Repo.Replace d = Repl.Path r /\
         (Version m <> Repl.Version r -> Repo.Version d <> Version m)) /\
    (forall d,
       d ∈ [ Repo.mk "a.com/x" "a.com/x" "v1.0.0" "h1:aaa" "";
             Repo.mk "b.com/y" "b.com/y" "v2.0.0" "h1:bbb" "";
             Repo.mk "c.com/z" "c.com/z" "v2.0.0" "h1:ddd" "d.com/z" ] ->
       exists k m, idx !! k = Some m /\ d = repoOf sampleWorld m /\
         forall r, Replace m = Some r ->
           Repo.Version d = Repl.Version r /\ Repo.Replace d = Repl.Path r).
Proof.
  apply (override_version_and_redirect sampleWorld sampleManifest sampleState).
  - intros n l. reflexivity.
  - vm_compute. reflexivity.
Defined.

(** C9: a replaced module is stored under the path of its replacement,
    yet the derived name and the import path of its descriptor are
    those of the path it was listed with; of the replacement the
    descriptor has the version and the redirect only. *)
Theorem override_keeps_declared_path (w : World) (filename : path)
    (st0 : state) (repos : list Repo.t) :
  range_ok w ->
  (importRepoRulesModules w filename st0).1 = Ok repos ->
  exists mods idx st,
    reachesTranslation w filename st0 mods idx st /\
    (forall k m r, idx !! k = Some m -> Replace m = Some r ->
       k = Repl.Path r /\
       (exists m0, m0 ∈ mods /\ Path m0 = Path m /\ Replace m0 = Some r) /\
       (Sum m <> "" ->
        exists d, d ∈ repos /\
          Repo.Name d = ImportPathToBazelRepoName w (Path m) /\
          Repo.GoPrefix d = Path m /\
          Repo.Version d = Repl.Version r /\
          Repo.Replace d = Repl.Path r /\
          Repo.Sum d = Sum m)) /\
    (forall d, d ∈ repos ->
       exists m0, m0 ∈ mods /\
         Repo.Name d = ImportPathToBazelRepoName w (Path m0) /\
         Repo.GoPrefix d = Path m0 /\
         match Replace m0 with
         | Some r => Repo.Version d = Repl.Version r /\
                     Repo.Replace d = Repl.Path r
         | None => Repo.Version d = Version m0 /\ Repo.Replace d = ""
         end).
Proof.
  intros Hw Hrun.
  destruct (run_Ok_inv _ _ _ _ Hrun) as (mods & idx & st & Hreach & Htr).
  exists mods, idx, st. split; [done|]. split.
  - intros k m r Hk Hr.
    destruct (reachesTranslation_index _ _ _ _ _ _ _ _ Hreach Hk)
      as (m0 & Hin & _ & Hkey & E).
    assert (Replace m0 = Some r) as Hr0 by (rewrite E in Hr; done).
    assert (Path m0 = Path m) as Hp by (rewrite E; done).
    split; [|split].
    + unfold indexKey in Hkey. by rewrite Hr0 in Hkey.
    + by exists m0.
    + intros Hsum. exists (repoOf w m). split.
      { apply (elem_of_repos w filename st0 repos mods idx st); eauto. }
      unfold repoOf. by rewrite Hr.
  - intros d Hd.
    apply (elem_of_repos w filename st0 repos mods idx st) in Hd
      as (k & m & Hk & _ & ->); [|done..].
    destruct (reachesTranslation_index _ _ _ _ _ _ _ _ Hreach Hk)
      as (m0 & Hin & _ & _ & E).
    exists m0. split; [done|]. rewrite E. unfold repoOf. simpl.
    by destruct (Replace m0).
Qed.

Lemma override_keeps_declared_path_witness :
  let repos := [ Repo.mk "a.com/x" "a.com/x" "v1.0.0" "h1:aaa" "";
                 Repo.mk "b.com/y" "b.com/y" "v2.0.0" "h1:bbb" "";
                 Repo.mk "c.com/z" "c.com/z" "v2.0.0" "h1:ddd" "d.com/z" ] in
  exists mods idx st,
    reachesTranslation sampleWorld sampleManifest sampleState mods idx st /\
    (forall k m r, idx !! k = Some m -> Replace m = Some r ->
       k = Repl.Path r /\
       (exists m0, m0 ∈ mods /\ Path m0 = Path m /\ Replace m0 = Some r) /\
       (Sum m <> "" ->
        exists d, d ∈ repos /\
          Repo.Name d = ImportPathToBazelRepoName sampleWorld (Path m) /\
          Repo.GoPrefix d = Path m /\
          Repo.Version d = Repl.Version r /\
          Repo.Replace d = Repl.Path r /\
          Repo.Sum d = Sum m)) /\
    (forall d, d ∈ repos ->
       exists m0, m0 ∈ mods /\
         Repo.Name d = ImportPathToBazelRepoName sampleWorld (Path m0) /\
         Repo.GoPrefix d = Path m0 /\
         match Replace m0 with
         | Some r => Repo.Version d = Repl.Version r /\
                     Repo.Replace d = Repl.Path r
         | None => Repo.Version d = Version m0 /\ Repo.Replace d = ""
         end).
Proof.
  apply (override_keeps_declared_path sampleWorld sampleManifest sampleState).
  - intros n l. reflexivity.
  - vm_compute. reflexivity.
Defined.

(** ** C7: records without a sum *)

Lemma run_after_download w filename st0 mods idx st :
  reachesTranslation w filename st0 mods idx st ->
  exists tempDir,
    importRepoRulesModules w filename st0 =
    defer (os_RemoveAll tempDir) (translateRepos w idx) st.
Proof.
  intros (tempDir & idx1 & st4 & Hmerge & Hdl). exists tempDir.
  rewrite (run_after_merge _ _ _ _ _ _ _ Hmerge).
  unfold defer, bind. by rewrite Hdl.
Qed.

(** C7: every descriptor the run returns has a sum.  Once merge and
    recovery are done the run returns a list, whatever records are
    still without a sum; such a record has no descriptor in the list
    and has its line in the log. *)
Theorem missing_sum_dropped (w : World) (filename : path) (st0 : state) :
  range_ok w ->
  (forall repos, (importRepoRulesModules w filename st0).1 = Ok repos ->
     forall d, d ∈ repos -> Repo.Sum d <> "") /\
  (forall mods idx st, reachesTranslation w filename st0 mods idx st ->
     exists repos,
       (importRepoRulesModules w filename st0).1 = Ok repos /\
       forall k m, idx !! k = Some m -> Sum m = "" ->
         (repoOf w m ∉ repos) /\
         sumMsg m ∈ logs (importRepoRulesModules w filename st0).2).
Proof.
  intros Hw.
  assert (forall idx d,
    d ∈ sort_Slice lessName
          (repoOf w <$> filter (fun m => Sum m <> "") (rangeMap w 1 idx)) ->
    Repo.Sum d <> "") as Hsum.
  { intros idx d. rewrite sort_Slice_perm.
    by intros (m & -> & [? _]%list_elem_of_filter)%list_elem_of_fmap. }
  split.
  - intros repos Hrun d.
    destruct (run_Ok_inv _ _ _ _ Hrun) as (mods & idx & st & _ & Htr).
    rewrite translateRepos_eq in Htr. simpl in Htr. injection Htr as <-.
    apply Hsum.
  - intros mods idx st Hreach.
    destruct (run_after_download _ _ _ _ _ _ Hreach) as [tempDir ->].
    unfold defer. rewrite translateRepos_eq. simpl.
    eexists. split; [done|].
    intros k m Hk Hm. split.
    + intros Hin%Hsum. done.
    + apply elem_of_app. right. apply list_elem_of_fmap. exists m.
      split; [done|]. apply list_elem_of_filter. split; [done|].
      apply elem_of_rangeMap; eauto.
Qed.

Lemma missing_sum_dropped_witness :
  (forall repos,
     (importRepoRulesModules silentWorld sampleManifest sampleState).1 = Ok repos ->
     forall d, d ∈ repos -> Repo.Sum d <> "") /\
  (forall mods idx st,
     reachesTranslation silentWorld sampleManifest sampleState mods idx st ->
     exists repos,
       (importRepoRulesModules silentWorld sampleManifest sampleState).1 = Ok repos /\
       forall k m, idx !! k = Some m -> Sum m = "" ->
         (repoOf silentWorld m ∉ repos) /\
         sumMsg m ∈
           logs (importRepoRulesModules silentWorld sampleManifest sampleState).2).
Proof.
  apply (missing_sum_dropped silentWorld sampleManifest sampleState).
  intros n l. reflexivity.
Defined.

Example silent_run :
  let out := importRepoRulesModules silentWorld sampleManifest sampleState in
  out.1 = Ok [ Repo.mk "a.com/x" "a.com/x" "v1.0.0" "h1:aaa" "";
               Repo.mk "c.com/z" "c.com/z" "v2.0.0" "h1:ddd" "d.com/z" ] /\
  logs out.2 =
    [ "go_repository does not support file path replacements for l.com/z -> ../l";
      "could not determine sum for module b.com/y" ].
Proof. split; vm_compute; reflexivity. Qed.

(** ** C8: the first loop *)

(** The descriptors translated from an index come from its records. *)
Lemma translated_from_index w idx idx' st d :
  range_ok w ->
  sumsOnly idx idx' ->
  d ∈ match (translateRepos w idx' st).1 with Ok repos => repos | Err _ => [] end ->
  exists k m, idx !! k = Some m /\ d = repoOf w (setSum m (Repo.Sum d)).
Proof.
  intros Hw Hso (k & m' & Hk & _ & ->)%elem_of_translateRepos; [|done].
  destruct (sumsOnly_Some _ _ _ _ Hso Hk) as (m & Hm & E).
  exists k, m. split; [done|]. simpl. by rewrite <- E.
Qed.

(** C8: of the records decoded in the first loop, one flagged main is
    dropped; another whose replacement path is absolute or a relative
    import is logged and dropped; another with a replacement is stored
    under the path of the replacement; one without is stored under its
    own path.  A key keeps the last record stored under it.  Nothing
    else is in the index, and no descriptor translated from it comes
    from a main module. *)
Theorem first_loop_index (w : World) (dec : decoded) (st : state)
    (idx : index) (st' : state) :
  indexModules dec ∅ st = (Ok idx, st') ->
  (forall k m, idx !! k = Some m ->
     Ok m ∈ dec /\ Main m = false /\ hasLocalReplace m = false /\
     k = indexKey m) /\
  (forall m r, Ok m ∈ dec -> Main m = false -> Replace m = Some r ->
     (Go.IsAbs (Repl.Path r) || Go.IsLocalImport (Repl.Path r)) = true ->
     replaceMsg m r ∈ logs st' /\ forall k, idx !! k <> Some m) /\
  (forall m r, Ok m ∈ dec -> Main m = false -> Replace m = Some r ->
     (Go.IsAbs (Repl.Path r) || Go.IsLocalImport (Repl.Path r)) = false ->
     exists m', idx !! Repl.Path r = Some m' /\ indexKey m' = Repl.Path r) /\
  (forall m, Ok m ∈ dec -> Main m = false -> Replace m = None ->
     exists m', idx !! Path m = Some m' /\ indexKey m' = Path m) /\
  (forall dec1 m dec2, dec = dec1 ++ Ok m :: dec2 -> indexed m = true ->
     (forall m', Ok m' ∈ dec2 -> indexed m' = true -> indexKey m' <> indexKey m) ->
     idx !! indexKey m = Some m) /\
  (forall idx' st1 d, range_ok w -> sumsOnly idx idx' ->
     d ∈ match (translateRepos w idx' st1).1 with
         | Ok repos => repos
         | Err _ => []
         end ->
     exists m, Ok m ∈ dec /\ Main m = false /\
               Repo.GoPrefix d = Path m /\
               Repo.Name d = ImportPathToBazelRepoName w (Path m)).
Proof.
  intros Hidx.
  destruct (indexModules_Ok_inv _ _ _ _ _ Hidx) as [mods ->].
  rewrite indexModules_Ok in Hidx. injection Hidx as <- <-.
  assert (forall m, Ok m ∈ (Ok <$> mods : decoded) <-> m ∈ mods) as Hdec.
  { intros m. rewrite list_elem_of_fmap. split; [|by eauto].
    by intros (? & [= ->] & ?). }
  assert (forall k m,
    foldl storeModule ∅ (filter (fun m => indexed m) mods) !! k = Some m ->
    Ok m ∈ (Ok <$> mods : decoded) /\ Main m = false /\
    hasLocalReplace m = false /\ k = indexKey m) as Hin.
  { intros k m [[[Hi ?]%list_elem_of_filter ?]|?]%storeModule_elem;
      [|by rewrite lookup_empty in *].
    rewrite Hdec. unfold indexed in Hi.
    destruct (Main m), (hasLocalReplace m); done. }
  split; [done|]. split; [|split; [|split; [|split]]].
  - intros m r Hm%Hdec Hmain Hr Hl. split.
    + simpl. apply elem_of_app. right. apply list_elem_of_omap.
      exists m. split; [done|]. unfold skipMsg, localReplace.
      by rewrite Hmain, Hr, Hl.
    + intros k (_ & _ & Hno & _)%Hin. unfold hasLocalReplace, localReplace in Hno.
      rewrite Hr in Hno. congruence.
  - intros m r Hm%Hdec Hmain Hr Hl.
    assert (m ∈ filter (fun m => indexed m) mods) as Hf.
    { apply list_elem_of_filter. split; [|done].
      unfold indexed, hasLocalReplace, localReplace. by rewrite Hmain, Hr, Hl. }
    destruct (storeModule_some _ ∅ _ Hf) as (m' & H1 & _ & H2).
    assert (indexKey m = Repl.Path r) as E by (unfold indexKey; by rewrite Hr).
    rewrite E in H1, H2. by exists m'.
  - intros m Hm%Hdec Hmain Hr.
    assert (m ∈ filter (fun m => indexed m) mods) as Hf.
    { apply list_elem_of_filter. split; [|done].
      unfold indexed, hasLocalReplace. by rewrite Hmain, Hr. }
    destruct (storeModule_some _ ∅ _ Hf) as (m' & H1 & _ & H2).
    assert (indexKey m = Path m) as E by (unfold indexKey; by rewrite Hr).
    rewrite E in H1, H2. by exists m'.
  - intros dec1 m dec2 Hsplit Hi Hlast.
    assert (exists ms1 ms2, mods = ms1 ++ m :: ms2 /\ dec2 = Ok <$> ms2)
      as (ms1 & ms2 & -> & ->).
    { clear -Hsplit. revert dec1 Hsplit.
      induction mods as [|m0 mods IH]; intros [|x dec1] Hsplit;
        simplify_eq/=.
      - by exists [], mods.
      - destruct (IH _ H0) as (ms1 & ms2 & -> & ->).
        by exists (m0 :: ms1), ms2. }
    rewrite filter_app, filter_cons_True by (by apply Is_true_true).
    apply storeModule_last.
    intros m' [Hi' Hm']%list_elem_of_filter. apply Hlast.
    + apply list_elem_of_fmap. eauto.
    + by apply Is_true_true.
  - intros idx' st1 d Hw Hso Hd.
    destruct (translated_from_index _ _ _ _ _ Hw Hso Hd) as (k & m & Hk & ->).
    destruct (Hin _ _ Hk) as (? & ? & _ & _). by exists m.
Qed.

Lemma first_loop_index_witness :
  let dec : decoded := Ok <$> sampleModules in
  let idx : index :=
    <["d.com/z" := {| Path := "c.com/z"; Version := "v1.0.0"; Sum := "";
                      Main := false;
                      Replace := Some (Repl.mk "d.com/z" "v2.0.0") |}]>
    (<["b.com/y" := {| Path := "b.com/y"; Version := "v2.0.0"; Sum := "";
                       Main := false; Replace := None |}]>
    (<["a.com/x" := {| Path := "a.com/x"; Version := "v1.0.0"; Sum := "";
                       Main := false; Replace := None |}]> ∅)) in
  let st' : state :=
    {| fs := sampleFS;
       logs := ["go_repository does not support file path replacements for l.com/z -> ../l"];
       calls := []; ops := [] |} in
  indexModules dec ∅ sampleState = (Ok idx, st') /\
  (forall k m, idx !! k = Some m ->
     Ok m ∈ dec /\ Main m = false /\ hasLocalReplace m = false /\
     k = indexKey m) /\
  (forall m r, Ok m ∈ dec -> Main m = false -> Replace m = Some r ->
     (Go.IsAbs (Repl.Path r) || Go.IsLocalImport (Repl.Path r)) = true ->
     replaceMsg m r ∈ logs st' /\ forall k, idx !! k <> Some m) /\
  (forall m r, Ok m ∈ dec -> Main m = false -> Replace m = Some r ->
     (Go.IsAbs (Repl.Path r) || Go.IsLocalImport (Repl.Path r)) = false ->
     exists m', idx !! Repl.Path r = Some m' /\ indexKey m' = Repl.Path r) /\
  (forall m, Ok m ∈ dec -> Main m = false -> Replace m = None ->
     exists m', idx !! Path m = Some m' /\ indexKey m' = Path m) /\
  (forall dec1 m dec2, dec = dec1 ++ Ok m :: dec2 -> indexed m = true ->
     (forall m', Ok m' ∈ dec2 -> indexed m' = true -> indexKey m' <> indexKey m) ->
     idx !! indexKey m = Some m) /\
  (forall idx' st1 d, range_ok sampleWorld -> sumsOnly idx idx' ->
     d ∈ match (translateRepos sampleWorld idx' st1).1 with
         | Ok repos => repos
         | Err _ => []
         end ->
     exists m, Ok m ∈ dec /\ Main m = false /\
               Repo.GoPrefix d = Path m /\
               Repo.Name d = ImportPathToBazelRepoName sampleWorld (Path m)).
Proof.
  intros dec idx st'.
  assert (indexModules dec ∅ sampleState = (Ok idx, st')) as H.
  { vm_compute. reflexivity. }
  split; [exact H|].
  exact (first_loop_index sampleWorld dec sampleState idx st' H).
Defined.

(** ** C10: a ledger that cannot be read *)






Example unreadable_ledger_run :
  let out := importRepoRulesModules noLedgerWorld sampleManifest sampleState in
  out.1 = Ok [ Repo.mk "b.com/y" "b.com/y" "v2.0.0" "h1:bbb" "" ] /\
  calls out.2 =
    [ CallList sampleTemp;
      CallDownload sampleTemp ["a.com/x@v1.0.0"; "b.com/y@v2.0.0"; "d.com/z@v2.0.0"] ] /\
  logs out.2 =
    [ "go_repository does not support file path replacements for l.com/z -> ../l";
      "could not determine sum for module a.com/x";
      "could not determine sum for module c.com/z" ].
Proof. repeat split; vm_compute; reflexivity. Qed.

(** * Further properties *)

(** ** Strings *)

Lemma app_String c s t : String c s +:+ t = String c (s +:+ t).
Proof. done. Qed.

Lemma app_empty_r s : s +:+ "" = s.
Proof. induction s as [|c s IH]; [done|]. by rewrite app_String, IH. Qed.

Lemma app_assoc_s s t u : (s +:+ t) +:+ u = s +:+ (t +:+ u).
Proof. induction s as [|c s IH]; [done|]. by rewrite !app_String, IH. Qed.

Lemma length_app_s s t :
  String.length (s +:+ t) = String.length s + String.length t.
Proof. induction s as [|c s IH]; [done|]. rewrite app_String. simpl. by rewrite IH. Qed.

(** *** White space in UTF-8 *)

Lemma isSpace_not_cont c : Go.isSpace c = true -> Go.isCont c = false.
Proof. destruct c as [[] [] [] [] [] [] [] []]; vm_compute; congruence. Qed.

Ltac bytes_lia :=
  unfold Go.space2, Go.space3, Go.isCont, Go.byteIs, Go.byteIn;
  repeat first [ rewrite andb_true_iff | rewrite orb_true_iff
               | rewrite andb_false_iff | rewrite N.eqb_eq
               | rewrite N.leb_le | rewrite N.leb_gt ];
  repeat match goal with |- context [N_of_ascii ?c] =>
           generalize (N_of_ascii c); clear c; intros c end;
  lia.

Lemma space2_cont c d :
  Go.space2 c d = true -> Go.isCont c = false /\ Go.isCont d = true.
Proof. bytes_lia. Qed.

Lemma space3_cont c d e :
  Go.space3 c d e = true ->
  Go.isCont c = false /\ Go.isCont d = true /\ Go.isCont e = true.
Proof. bytes_lia. Qed.

(** *** Where a white-space rune starts *)

Lemma spaceWidth_cleanStart s : Go.spaceWidth s <> 0 -> cleanStart s = true.
Proof.
  destruct s as [|c [|d [|e s]]]; simpl; [done|..];
    destruct (Go.isSpace c) eqn:Hc;
    try (intros _; by rewrite (isSpace_not_cont c Hc)); try done.
  - destruct (Go.space2 c d) eqn:H2; [|done].
    intros _. by destruct (space2_cont c d H2) as [-> _].
  - destruct (Go.space2 c d) eqn:H2.
    + intros _. by destruct (space2_cont c d H2) as [-> _].
    + destruct (Go.space3 c d e) eqn:H3; [|done].
      intros _. by destruct (space3_cont c d e H3) as [-> _].
Qed.

(** The bytes after a white-space rune do not matter. *)
Lemma spaceWidth_app s t k :
  Go.spaceWidth s = S k -> Go.spaceWidth (s +:+ t) = S k.
Proof.
  destruct s as [|c [|d [|e s]]]; simpl; [done|..];
    destruct (Go.isSpace c); try done.
  - by destruct (Go.space2 c d).
Qed.

(** A white-space rune lies within the string. *)
Lemma spaceWidth_length c s k :
  Go.spaceWidth (String c s) = S k -> k <= String.length s.
Proof.
  destruct s as [|d [|e s]]; simpl; destruct (Go.isSpace c);
    try (intros [= <-]; lia); try done.
  - destruct (Go.space2 c d); [intros [= <-]; lia|done].
  - destruct (Go.space2 c d); [intros [= <-]; lia|].
    destruct (Go.space3 c d e); [intros [= <-]; lia|done].
Qed.

(** Bytes that follow do not turn the end of a string into white
    space, unless they start with a continuation byte. *)
Lemma spaceWidth_app_clean c s t :
  cleanStart t = true ->
  Go.spaceWidth (String c (s +:+ t)) = Go.spaceWidth (String c s).
Proof.
  intros Ht. destruct s as [|d [|e s]]; [| |done].
  - destruct t as [|d t]; [done|]. simpl in *.
    apply negb_true_iff in Ht.
    destruct (Go.isSpace c); [done|].
    destruct (Go.space2 c d) eqn:H2.
    { apply space2_cont in H2 as [_ H2]. congruence. }
    destruct t as [|e t]; [done|].
    destruct (Go.space3 c d e) eqn:H3; [|done].
    apply space3_cont in H3 as (_ & H3 & _). congruence.
  - destruct t as [|e t]; [done|]. simpl in *.
    apply negb_true_iff in Ht.
    destruct (Go.isSpace c); [done|].
    destruct (Go.space2 c d); [done|].
    destruct (Go.space3 c d e) eqn:H3; [|done].
    apply space3_cont in H3 as (_ & _ & H3). congruence.
Qed.


(** *** Fields and trimming *)

Lemma allSpace_cleanStart u : allSpace u = true -> cleanStart u = true.
Proof.
  destruct u as [|c u]; [done|]. unfold allSpace. cbn [Go.spaces].
  intros H. apply spaceWidth_cleanStart. by destruct (Go.spaceWidth _).
Qed.

Lemma cleanStart_app u t :
  u <> "" -> cleanStart u = true -> cleanStart (u +:+ t) = true.
Proof. by destruct u. Qed.

Lemma fields_spaces k u s :
  Go.spaces k u = true -> Go.fields k (u +:+ s) = Go.fields 0 s.
Proof.
  revert k. induction u as [|c u IH]; intros k.
  - by destruct k.
  - rewrite app_String. cbn [Go.spaces Go.fields]. destruct k as [|k]; [|by auto].
    destruct (Go.spaceWidth (String c u)) as [|j] eqn:Hw; [done|].
    rewrite <- app_String, (spaceWidth_app _ s j Hw). by auto.
Qed.

Lemma Fields_allSpace u : allSpace u = true -> Go.Fields u = [].
Proof.
  intros Hu. unfold Go.Fields.
  rewrite <- (app_empty_r u). by rewrite (fields_spaces 0 u "").
Qed.

Lemma Fields_space_l u s : allSpace u = true -> Go.Fields (u +:+ s) = Go.Fields s.
Proof. apply fields_spaces. Qed.

Lemma fields_space_r k s u :
  allSpace u = true -> k <= String.length s ->
  Go.fields k (s +:+ u) = Go.fields k s.
Proof.
  intros Hu. pose proof (allSpace_cleanStart u Hu) as Hclean.
  revert k. induction s as [|c s IH]; intros k Hk.
  - simpl in Hk. replace k with 0 by lia. by apply Fields_allSpace.
  - rewrite app_String. cbn [Go.fields]. simpl in Hk.
    destruct k as [|k]; [|apply IH; lia].
    rewrite (spaceWidth_app_clean c s u Hclean).
    destruct (Go.spaceWidth (String c s)) as [|j] eqn:Hw.
    + destruct s as [|d s].
      * change ("" +:+ u) with u. cbn [Go.fields].
        destruct u as [|e u]; [done|].
        unfold allSpace in Hu. cbn [Go.spaces] in Hu.
        destruct (Go.spaceWidth (String e u)) as [|j] eqn:Hwu; [done|].
        f_equal. change (Go.Fields (String e u) = []).
        apply Fields_allSpace. unfold allSpace. cbn [Go.spaces]. by rewrite Hwu.
      * rewrite app_String, (spaceWidth_app_clean d s u Hclean).
        rewrite <- app_String, IH by lia. done.
    + apply IH. by apply spaceWidth_length in Hw.
Qed.

Lemma Fields_space_r s u : allSpace u = true -> Go.Fields (s +:+ u) = Go.Fields s.
Proof. intros Hu. apply fields_space_r; [done|lia]. Qed.

Lemma fields_dropSpace k s : Go.fields 0 (Go.dropSpace k s) = Go.fields k s.
Proof.
  revert k. induction s as [|c s IH]; intros k; [by destruct k|].
  cbn [Go.dropSpace]. destruct k as [|k]; [|by rewrite IH].
  destruct (Go.spaceWidth (String c s)) as [|j] eqn:Hw; [done|].
  rewrite IH. cbn [Go.fields]. by rewrite Hw.
Qed.

Lemma dropSpaceEnd_split s :
  exists u, allSpace u = true /\ s = Go.dropSpaceEnd s +:+ u.
Proof.
  induction s as [|c s (u & Hu & IH)]; [by exists ""|].
  cbn [Go.dropSpaceEnd]. destruct (Go.spaces 0 (String c s)) eqn:Hs.
  - by exists (String c s).
  - exists u. split; [done|]. by rewrite app_String, <- IH.
Qed.

Lemma Fields_TrimSpace s : Go.Fields (Go.TrimSpace s) = Go.Fields s.
Proof.
  unfold Go.TrimSpace.
  destruct (dropSpaceEnd_split (Go.dropSpace 0 s)) as (u & Hu & E).
  rewrite <- (Fields_space_r _ u Hu), <- E. apply fields_dropSpace.
Qed.

Lemma Fields_field t : isField t -> Go.Fields t = [t].
Proof.
  intros [Hne Hns]. unfold Go.Fields.
  induction t as [|c t IH]; [done|]. clear Hne.
  cbn [noSpace] in Hns. apply andb_true_iff in Hns as [Hc%Nat.eqb_eq Hns].
  cbn [Go.fields]. rewrite Hc.
  destruct t as [|d t]; [done|].
  pose proof Hns as Hns'. cbn [noSpace] in Hns'.
  apply andb_true_iff in Hns' as [Hd%Nat.eqb_eq _].
  rewrite Hd, IH; done.
Qed.

Lemma Fields_field_space t u rest :
  isField t -> allSpace u = true -> u <> "" ->
  Go.Fields (t +:+ u +:+ rest) = t :: Go.Fields rest.
Proof.
  intros [Hne Hns] Hu Hune. unfold Go.Fields.
  assert (cleanStart (u +:+ rest) = true) as Hclean.
  { apply cleanStart_app; [done|]. by apply allSpace_cleanStart. }
  induction t as [|c t IH]; [done|]. clear Hne.
  cbn [noSpace] in Hns. apply andb_true_iff in Hns as [Hc%Nat.eqb_eq Hns].
  rewrite app_String. cbn [Go.fields].
  rewrite (spaceWidth_app_clean c t _ Hclean), Hc.
  destruct t as [|d t].
  - change ("" +:+ (u +:+ rest)) with (u +:+ rest).
    rewrite (fields_spaces 0 u rest Hu).
    destruct u as [|e u]; [done|]. rewrite app_String.
    unfold allSpace in Hu. cbn [Go.spaces] in Hu.
    destruct (Go.spaceWidth (String e u)) as [|j] eqn:Hwu; [done|].
    rewrite <- app_String. by rewrite (spaceWidth_app _ rest j Hwu).
  - pose proof Hns as Hns'. cbn [noSpace] in Hns'.
    apply andb_true_iff in Hns' as [Hd%Nat.eqb_eq _].
    rewrite app_String, (spaceWidth_app_clean d t _ Hclean), Hd.
    rewrite <- app_String, IH; done.
Qed.

Lemma substring_all s : substring 0 (String.length s) s = s.
Proof. induction s as [|c s IH]; [done|]. simpl. by rewrite IH. Qed.

Lemma substring_app_r x y :
  substring (String.length x) (String.length y) (x +:+ y) = y.
Proof.
  induction x as [|c x IH]; simpl; [apply substring_all|]. apply IH.
Qed.

Lemma substring_split s n :
  n <= String.length s ->
  s = substring 0 n s +:+ substring n (String.length s - n) s.
Proof.
  revert n. induction s as [|c s IH]; intros [|n] Hn; simpl in *; try done; try lia.
  - by rewrite substring_all.
  - rewrite app_String. f_equal. specialize (IH n ltac:(lia)).
    destruct n; simpl in *; done.
Qed.

(** [strings.HasSuffix] holds exactly of the strings that end in the suffix. *)
Lemma HasSuffix_spec s suffix :
  Go.HasSuffix s suffix = true <-> exists x, s = x +:+ suffix.
Proof.
  unfold Go.HasSuffix. split.
  - intros [Hlen Heq]%andb_true_iff.
    apply Nat.leb_le in Hlen. apply String.eqb_eq in Heq.
    exists (substring 0 (String.length s - String.length suffix) s).
    pose proof (substring_split s (String.length s - String.length suffix)
                  ltac:(lia)) as E.
    replace (String.length s - (String.length s - String.length suffix))
      with (String.length suffix) in E by lia.
    by rewrite Heq in E.
  - intros [x ->]. rewrite length_app_s. apply andb_true_iff. split.
    + apply Nat.leb_le. lia.
    + replace (String.length x + String.length suffix - String.length suffix)
        with (String.length x) by lia.
      rewrite substring_app_r. apply String.eqb_refl.
Qed.

(** ** Ledger lines *)

Lemma ledgerEntry_Fields line :
  ledgerEntry line =
  match Go.Fields line with
  | [p; v; s] => if Go.HasSuffix v "/go.mod" then None else Some (p, v, s)
  | _ => None
  end.
Proof. unfold ledgerEntry. by rewrite Fields_TrimSpace. Qed.

Lemma Fields_three p v h s1 s2 :
  isField p -> isField v -> isField h ->
  allSpace s1 = true -> s1 <> "" -> allSpace s2 = true -> s2 <> "" ->
  Go.Fields (p +:+ s1 +:+ v +:+ s2 +:+ h) = [p; v; h].
Proof.
  intros Hp Hv Hh H1 H1' H2 H2'.
  by rewrite !Fields_field_space, Fields_field.
Qed.

(** X1: a line of three fields with white space between them, where
    white space is any run of the runes of [unicode.IsSpace] in UTF-8
    and a field is a run of bytes in which no such rune starts, is read
    as the entry it spells: it sets the sum of the module stored under
    its path, if there is one, unless its version ends in /go.mod, and
    then it changes nothing. *)
Theorem ledger_line_read (idx : index) (p v h s1 s2 : string) :
  isField p -> isField v -> isField h ->
  allSpace s1 = true -> s1 <> "" -> allSpace s2 = true -> s2 <> "" ->
  let line := p +:+ s1 +:+ v +:+ s2 +:+ h in
  ((forall x, v <> x +:+ "/go.mod") ->
   mergeLine idx line =
   match idx !! p with
   | Some m => <[p := setSum m h]> idx
   | None => idx
   end) /\
  ((exists x, v = x +:+ "/go.mod") -> mergeLine idx line = idx).
Proof.
  intros Hp Hv Hh H1 H1' H2 H2' line.
  rewrite mergeLine_entry, ledgerEntry_Fields. unfold line.
  rewrite Fields_three by done. split.
  - intros Hno. destruct (Go.HasSuffix v "/go.mod") eqn:E; [|done].
    apply HasSuffix_spec in E as [x ->]. by destruct (Hno x).
  - intros Hx. apply HasSuffix_spec in Hx. by rewrite Hx.
Qed.

Lemma ledger_line_read_witness :
  let idx : index :=
    {["a.com/x" := {| Path := "a.com/x"; Version := "v1.0.0"; Sum := "";
                      Main := false; Replace := None |}]} in
  let line := "a.com/x" +:+ nbsp +:+ "v1.0.0" +:+ (String "009" emsp) +:+ "h1:aaa" in
  ((forall x, "v1.0.0" <> x +:+ "/go.mod") ->
   mergeLine idx line =
   match idx !! "a.com/x" with
   | Some m => <["a.com/x" := setSum m "h1:aaa"]> idx
   | None => idx
   end) /\
  ((exists x, "v1.0.0" = x +:+ "/go.mod") -> mergeLine idx line = idx).
Proof.
  intros idx line.
  apply (ledger_line_read idx "a.com/x" "v1.0.0" "h1:aaa" nbsp
           (String "009" emsp));
    try (split; [discriminate|reflexivity]); try reflexivity; discriminate.
Defined.

(** X2: white space around a line does not count, whatever runes of
    [unicode.IsSpace] it is made of, so a ledger with CR LF line ends
    reads like one with LF line ends; a line of white space only
    changes nothing. *)
Theorem ledger_line_white_space (idx : index) (u line u' : string) :
  allSpace u = true -> allSpace u' = true ->
  mergeLine idx (u +:+ line +:+ u') = mergeLine idx line /\
  mergeLine idx (line +:+ String "013" "") = mergeLine idx line /\
  mergeLine idx u = idx.
Proof.
  intros Hu Hu'. rewrite !mergeLine_entry, !ledgerEntry_Fields.
  rewrite (Fields_space_l u), (Fields_space_r line u') by done.
  rewrite (Fields_space_r line (String "013" "")) by done.
  by rewrite (Fields_allSpace u).
Qed.

Lemma ledger_line_white_space_witness :
  let idx : index :=
    {["a.com/x" := {| Path := "a.com/x"; Version := "v1.0.0"; Sum := "";
                      Main := false; Replace := None |}]} in
  let line := "a.com/x v1.0.0 h1:aaa" in
  mergeLine idx ((nel +:+ " ") +:+ line +:+ (String "009" emsp)) =
    mergeLine idx line /\
  mergeLine idx (line +:+ String "013" "") = mergeLine idx line /\
  mergeLine idx (nel +:+ " ") = idx.
Proof.
  intros idx line.
  by apply (ledger_line_white_space idx (nel +:+ " ") line (String "009" emsp)).
Defined.

Lemma SplitLines_nonempty s : Go.SplitLines s <> [].
Proof.
  induction s as [|c s IH]; simpl; [done|].
  destruct (Ascii.eqb c "010"); [done|]. by destruct (Go.SplitLines s).
Qed.

Lemma SplitLines_app a b :
  Go.SplitLines (a +:+ nl +:+ b) = Go.SplitLines a ++ Go.SplitLines b.
Proof.
  induction a as [|c a IH]; [done|].
  rewrite app_String. simpl. rewrite IH.
  destruct (Ascii.eqb c "010"); [done|].
  pose proof (SplitLines_nonempty a). by destruct (Go.SplitLines a).
Qed.

(** X3: the ledger is merged line by line, from first to last: merging
    two ledgers written one after the other is merging the first, then
    the second; a ledger that lacks the line feed after its last line
    merges like the one that has it, and an empty ledger changes
    nothing. *)
Theorem ledger_merge_in_order (a b : string) (idx : index) :
  mergeSums (a +:+ nl +:+ b) idx = mergeSums b (mergeSums a idx) /\
  mergeSums (a +:+ nl) idx = mergeSums a idx /\
  mergeSums "" idx = idx.
Proof.
  assert (mergeSums (a +:+ nl +:+ b) idx = mergeSums b (mergeSums a idx)) as H.
  { unfold mergeSums. by rewrite SplitLines_app, fold_left_app. }
  split; [done|]. split; [|done].
  assert (forall c, Go.SplitLines (c +:+ nl) = Go.SplitLines c ++ [""]) as Hnl.
  { intros c. rewrite <- (app_empty_r (c +:+ nl)), app_assoc_s.
    apply (SplitLines_app c ""). }
  unfold mergeSums. by rewrite Hnl, fold_left_app.
Qed.

(** ** The merge and the index *)

Lemma lastSumFor_None k es :
  lastSumFor k es = None <-> forall v s, (k, v, s) ∉ es.
Proof.
  split.
  - intros Hn v s Hin. apply lastSumFor_is_Some in Hin as [? ?]. congruence.
  - intros Hno. destruct (lastSumFor k es) as [s|] eqn:E; [|done].
    apply lastSumFor_Some in E as [v Hin]. by destruct (Hno v s).
Qed.

Lemma sumsOnly_dom idx idx' : sumsOnly idx idx' -> dom idx' = dom idx.
Proof.
  intros H. apply set_eq. intros k. rewrite !elem_of_dom.
  destruct (H k) as [[-> ->]|(m & s & -> & ->)]; [done|].
  split; intros _; by eexists.
Qed.

(** X4: the merge neither adds nor removes a module and changes no
    field but the sum: entries for paths that are not in the index are
    ignored.  After the merge a module is without a sum exactly when it
    was listed without one and the ledger has no entry for its key. *)
Theorem merge_keeps_modules (data : string) (idx : index) :
  dom (mergeSums data idx) = dom idx /\
  (forall k m', mergeSums data idx !! k = Some m' ->
     exists m, idx !! k = Some m /\ Path m' = Path m /\ Version m' = Version m /\
               Main m' = Main m /\ Replace m' = Replace m) /\
  (forall k,
     (exists m', mergeSums data idx !! k = Some m' /\ Sum m' = "") <->
     (exists m, idx !! k = Some m /\ Sum m = "" /\
                forall v s, (k, v, s) ∉ ledgerEntries data)).
Proof.
  split; [apply sumsOnly_dom, sumsOnly_mergeSums|]. split.
  - intros k m' Hk.
    destruct (sumsOnly_Some _ _ _ _ (sumsOnly_mergeSums data idx) Hk)
      as (m & Hm & ->).
    by exists m.
  - intros k. rewrite mergeSums_lookup. split.
    + intros (m' & Hk & Hsum). destruct (idx !! k) as [m|]; [|done].
      simpl in Hk. injection Hk as <-.
      destruct (lastSumFor k (ledgerEntries data)) as [s|] eqn:E.
      * simpl in Hsum. subst s. apply lastSumFor_Some in E as [v Hin].
        by apply ledgerEntries_sum_nonempty in Hin.
      * exists m. split; [done|]. split; [done|]. by apply lastSumFor_None.
    + intros (m & -> & Hsum & Hno%lastSumFor_None). rewrite Hno. by exists m.
Qed.

(** ** The second decode loop *)

Lemma attachSums_Ok (dls : list module) idx st :
  attachSums (Ok <$> dls) idx st = (Ok (foldl attachOne idx dls), st).
Proof.
  revert idx. induction dls as [|dl dls IH]; intros idx; [done|].
  cbn [fmap list_fmap attachSums foldl]. unfold attachOne at 2.
  destruct (idx !! Path dl); apply IH.
Qed.

Lemma attachSums_Err (dls : list module) e rest idx st :
  attachSums ((Ok <$> dls) ++ Err e :: rest) idx st = (Err e, st).
Proof.
  revert idx. induction dls as [|dl dls IH]; intros idx; [done|].
  cbn [fmap list_fmap attachSums app]. destruct (idx !! Path dl); apply IH.
Qed.

Lemma attachOne_lookup idx dl k :
  attachOne idx dl !! k =
  (fun m => if decide (Path dl = k) then setSum m (Sum dl) else m) <$> idx !! k.
Proof.
  unfold attachOne. destruct (decide (Path dl = k)) as [<-|Hne].
  - destruct (idx !! Path dl) as [m|] eqn:E.
    + by rewrite lookup_insert_eq.
    + by rewrite E.
  - destruct (idx !! Path dl) as [m|] eqn:E.
    + rewrite lookup_insert_ne by done. by destruct (idx !! k).
    + by destruct (idx !! k).
Qed.

Lemma foldl_attachOne_lookup dls idx k :
  foldl attachOne idx dls !! k =
  (fun m => match last (filter (fun dl => Path dl = k) dls) with
            | Some dl => setSum m (Sum dl)
            | None => m
            end) <$> idx !! k.
Proof.
  induction dls as [|dl dls IH] using rev_ind.
  - simpl. by destruct (idx !! k).
  - rewrite foldl_app. simpl. rewrite attachOne_lookup, IH, filter_app.
    destruct (idx !! k) as [m|]; [|done]. simpl. f_equal.
    rewrite filter_cons, filter_nil. destruct (decide (Path dl = k)).
    + rewrite last_snoc. by destruct (last _).
    + by rewrite app_nil_r.
Qed.

(** X5: when every record of the download output decodes, the loop
    ends without an error and leaves the state alone.  It neither adds
    nor removes a module; a record for a path that is not in the index
    is ignored; a module gets the sum of the last record for its key,
    even an empty one and even in place of a sum it had. *)
Theorem download_last_record_wins (dls : list module) (idx : index) (st : state) :
  exists idx',
    attachSums (Ok <$> dls) idx st = (Ok idx', st) /\
    dom idx' = dom idx /\
    forall k,
      idx' !! k =
      (fun m => match last (filter (fun dl => Path dl = k) dls) with
                | Some dl => setSum m (Sum dl)
                | None => m
                end) <$> idx !! k.
Proof.
  exists (foldl attachOne idx dls). split; [apply attachSums_Ok|]. split.
  - apply sumsOnly_dom.
    apply (attachSums_sumsOnly (Ok <$> dls) idx st _ st). apply attachSums_Ok.
  - apply foldl_attachOne_lookup.
Qed.

(** ** Errors of the [go] tool *)

Lemma run_after_copy w filename st0 tempDir st1 :
  copyGoModToTemp w filename st0 = ((tempDir, None), st1) ->
  importRepoRulesModules w filename st0 =
  defer (os_RemoveAll tempDir) (resolveModules w filename tempDir) st1.
Proof. unfold importRepoRulesModules. by intros ->. Qed.

Lemma copyGoModToTemp_logs_calls w filename st :
  logs (copyGoModToTemp w filename st).2 = logs st /\
  calls (copyGoModToTemp w filename st).2 = calls st.
Proof.
  unfold copyGoModToTemp, os_Open, ioutil_TempDir, os_Create, io_Copy,
    os_Remove, os_RemoveAll.
  repeat (case_match; simplify_eq/=; try done).
Qed.

Lemma indexModules_Err (mods : list module) e rest idx st :
  indexModules ((Ok <$> mods) ++ Err e :: rest) idx st =
  (Err e, add_logs (omap skipMsg mods) st).
Proof.
  revert idx st. induction mods as [|m mods IH]; intros idx st.
  - simpl. by rewrite add_logs_nil.
  - cbn [fmap list_fmap indexModules omap list_omap app].
    unfold skipMsg at 1.
    destruct (Main m); [apply IH|].
    destruct (Replace m) as [r|]; [|apply IH].
    destruct (localReplace r); [|apply IH].
    unfold bind, logPrintf. rewrite IH. by rewrite add_logs_cons.
Qed.

(** X6: when [go list] fails, the run returns its error.  The ledger
    is not read, [go mod download] is not called, nothing is logged,
    and the directory of the run is removed. *)
Theorem list_failure_aborts (w : World) (filename : path) (st0 : state)
    (tempDir : path) (st1 : state) (e : error) (f' : FS) :
  copyGoModToTemp w filename st0 = ((tempDir, None), st1) ->
  goListModules w tempDir (fs st1) = (Err e, f') ->
  let out := importRepoRulesModules w filename st0 in
  out.1 = Err e /\
  calls out.2 = calls st0 ++ [CallList tempDir] /\
  ops out.2 = ops st1 ++ [OpRemoveAll tempDir] /\
  logs out.2 = logs st0 /\
  forall p, tempDir `prefix_of` p -> fs out.2 !! p = None.
Proof.
  intros Hcopy Hlist out. unfold out.
  rewrite (run_after_copy _ _ _ _ _ Hcopy).
  destruct (copyGoModToTemp_logs_calls w filename st0) as [Hl Hc].
  rewrite Hcopy in Hl, Hc. simpl in Hl, Hc.
  unfold defer, resolveModules, listModules, bind, run_goListModules.
  rewrite Hlist. simpl. rewrite Hl, Hc. repeat split; try done.
  intros p Hp. apply map_lookup_filter_None. right. intros n _. by intros [].
Qed.

Lemma list_failure_aborts_witness :
  exists st1,
    copyGoModToTemp listFailWorld sampleManifest sampleState =
      ((sampleTemp, None), st1) /\
    let out := importRepoRulesModules listFailWorld sampleManifest sampleState in
    out.1 = Err "exit status 1" /\
    calls out.2 = calls sampleState ++ [CallList sampleTemp] /\
    ops out.2 = ops st1 ++ [OpRemoveAll sampleTemp] /\
    logs out.2 = logs sampleState /\
    forall p, sampleTemp `prefix_of` p -> fs out.2 !! p = None.
Proof.
  eassert (copyGoModToTemp listFailWorld sampleManifest sampleState =
           ((sampleTemp, None), _)) as H by reflexivity.
  eexists _. split; [exact H|].
  eapply (list_failure_aborts listFailWorld sampleManifest sampleState
            sampleTemp _ "exit status 1"); [exact H|reflexivity].
Defined.

(** X7: when a record of the output of [go list] does not decode, the
    run returns the error of that record and does not look at what
    follows it.  Only the records before it have been logged; the
    ledger is not read, [go mod download] is not called, and the
    directory of the run is removed. *)
Theorem list_decode_error_aborts (w : World) (filename : path) (st0 : state)
    (tempDir : path) (st1 : state) (mods : list module) (e : error)
    (rest : decoded) (f' : FS) :
  copyGoModToTemp w filename st0 = ((tempDir, None), st1) ->
  goListModules w tempDir (fs st1) =
    (Ok ((Ok <$> mods) ++ Err e :: rest), f') ->
  let out := importRepoRulesModules w filename st0 in
  out.1 = Err e /\
  calls out.2 = calls st0 ++ [CallList tempDir] /\
  ops out.2 = ops st1 ++ [OpRemoveAll tempDir] /\
  logs out.2 = logs st0 ++ omap skipMsg mods /\
  forall p, tempDir `prefix_of` p -> fs out.2 !! p = None.
Proof.
  intros Hcopy Hlist out. unfold out.
  rewrite (run_after_copy _ _ _ _ _ Hcopy).
  destruct (copyGoModToTemp_logs_calls w filename st0) as [Hl Hc].
  rewrite Hcopy in Hl, Hc. simpl in Hl, Hc.
  set (stA := add_call (CallList tempDir) (set_fs (fun _ => f') st1)).
  assert (run_goListModules w tempDir st1 =
          (Ok ((Ok <$> mods) ++ Err e :: rest), stA)) as Hrun.
  { unfold run_goListModules. by rewrite Hlist. }
  assert (resolveModules w filename tempDir st1 =
          (Err e, add_logs (omap skipMsg mods) stA)) as Hres.
  { unfold resolveModules. apply bind_Err. unfold listModules.
    rewrite (bind_Ok _ _ _ _ _ Hrun). apply indexModules_Err. }
  unfold defer. rewrite Hres. simpl. rewrite Hl, Hc.
  repeat split; try done.
  intros p Hp. apply map_lookup_filter_None. right. intros n _. by intros [].
Qed.

Lemma list_decode_error_aborts_witness :
  exists st1,
    copyGoModToTemp listGarbledWorld sampleManifest sampleState =
      ((sampleTemp, None), st1) /\
    let out := importRepoRulesModules listGarbledWorld sampleManifest sampleState in
    out.1 = Err "unexpected end of JSON input" /\
    calls out.2 = calls sampleState ++ [CallList sampleTemp] /\
    ops out.2 = ops st1 ++ [OpRemoveAll sampleTemp] /\
    logs out.2 = logs sampleState ++ omap skipMsg sampleModules /\
    forall p, sampleTemp `prefix_of` p -> fs out.2 !! p = None.
Proof.
  eassert (copyGoModToTemp listGarbledWorld sampleManifest sampleState =
           ((sampleTemp, None), _)) as H by reflexivity.
  eexists _. split; [exact H|].
  eapply (list_decode_error_aborts listGarbledWorld sampleManifest sampleState
            sampleTemp _ sampleModules "unexpected end of JSON input");
    [exact H|reflexivity].
Defined.

(** X8: when [go mod download] fails, or a record of its output does
    not decode, the run returns that error and no list, whatever sums
    are known by then; no record is reported as without a sum, and the
    directory of the run is removed. *)
Theorem download_failure_aborts (w : World) (filename : path) (st0 : state)
    (tempDir : path) (mods : list module) (idx : index) (st : state)
    (out' : result decoded) (f' : FS) (e : error) :
  reachesMerge w filename st0 tempDir mods idx st ->
  missingSumArgs (rangeMap w 0 idx) <> [] ->
  goModDownload w tempDir (missingSumArgs (rangeMap w 0 idx)) (fs st) = (out', f') ->
  (out' = Err e \/
   exists (dls : list module) rest, out' = Ok ((Ok <$> dls) ++ Err e :: rest)) ->
  let out := importRepoRulesModules w filename st0 in
  out.1 = Err e /\
  logs out.2 = logs st /\
  forall p, tempDir `prefix_of` p -> fs out.2 !! p = None.
Proof.
  intros Hreach Hne Hdl Hout out. unfold out.
  rewrite (run_after_merge _ _ _ _ _ _ _ Hreach).
  unfold defer, bind at 1, downloadSums.
  destruct (missingSumArgs (rangeMap w 0 idx)) as [|a args] eqn:Hargs; [done|].
  unfold bind, run_goModDownload. rewrite Hdl.
  destruct Hout as [->|(dls & rest & ->)].
  - simpl. repeat split; try done.
    intros p Hp. apply map_lookup_filter_None. right. intros n _. by intros [].
  - rewrite attachSums_Err. simpl. repeat split; try done.
    intros p Hp. apply map_lookup_filter_None. right. intros n _. by intros [].
Qed.

Lemma download_failure_aborts_witness :
  exists idx st,
    reachesMerge downloadFailWorld sampleManifest sampleState sampleTemp
      sampleModules idx st /\
    let out := importRepoRulesModules downloadFailWorld sampleManifest sampleState in
    out.1 = Err "exit status 1" /\
    logs out.2 = logs st /\
    forall p, sampleTemp `prefix_of` p -> fs out.2 !! p = None.
Proof.
  eassert (reachesMerge downloadFailWorld sampleManifest sampleState sampleTemp
             sampleModules _ _) as H.
  { eexists _, _, _, _. repeat split; reflexivity. }
  eexists _, _. split; [exact H|].
  eapply (download_failure_aborts downloadFailWorld sampleManifest sampleState
            sampleTemp sampleModules _ _ (Err "exit status 1") _ "exit status 1").
  - exact H.
  - by vm_compute.
  - reflexivity.
  - by left.
Defined.

(** ** The file system after a run *)

(** What a copy that succeeds has done. *)
Lemma copyGoModToTemp_success w filename st0 tempDir st1 :
  copyGoModToTemp w filename st0 = ((tempDir, None), st1) ->
  tempdir_choice w = Ok tempDir /\
  close_fault w = None /\
  fs st0 !! tempDir = None /\
  exists c,
    fs st0 !! filename = Some (File c) /\
    st1 = {| fs := <[Join tempDir "go.mod" := File c]>
                   (<[Join tempDir "go.mod" := File ""]>
                   (<[tempDir := Dir]> (fs st0)));
             logs := logs st0;
             calls := calls st0;
             ops := ops st0 ++ [OpOpen filename; OpMkdirTemp tempDir;
                                OpCreate (Join tempDir "go.mod")] |}.
Proof.
  unfold copyGoModToTemp, os_Open, ioutil_TempDir, os_Create, io_Copy.
  destruct (open_fault w); [done|].
  destruct (fs st0 !! filename) as [n|] eqn:Hfile; [|done].
  destruct (tempdir_choice w) as [d|]; [|done]. simpl.
  destruct (fs st0 !! d) eqn:Hd; [done|].
  destruct (create_fault w); [done|].
  destruct (copy_fault w); [done|].
  destruct n as [c|]; [|done].
  destruct (close_fault w); [done|].
  intros [= <- <-]. repeat split; try done.
  exists c. split; [done|]. unfold set_fs, add_op. simpl.
  by rewrite <- !app_assoc.
Qed.

Lemma not_below_fresh (f : FS) d p :
  ancestors_exist f -> f !! d = None -> d `prefix_of` p -> f !! p = None.
Proof.
  intros Htree Hd Hp. destruct (f !! p) eqn:E; [|done].
  destruct (ancestors_exist_prefix _ _ _ Htree Hp) as [? ?]; [by eexists|].
  congruence.
Qed.

Lemma run_outside_tempdir w filename st0 d p :
  tools_confined w ->
  tempdir_choice w = Ok d ->
  ¬ d `prefix_of` p ->
  fs (importRepoRulesModules w filename st0).2 !! p = fs st0 !! p.
Proof.
  intros Hw Hd Hp.
  unfold importRepoRulesModules, copyGoModToTemp, os_Open.
  destruct (open_fault w) as [e|]; [done|].
  destruct (fs st0 !! filename) as [n|] eqn:Hfile; [|done].
  set (st1 := add_op (OpOpen filename) st0).
  destruct (ioutil_TempDir w st1) as [[d'|e] st2] eqn:Htemp.
  2:{ unfold ioutil_TempDir in Htemp. rewrite Hd in Htemp.
      destruct (fs st1 !! d); by simplify_eq. }
  assert (d' = d) as ->.
  { unfold ioutil_TempDir in Htemp. rewrite Hd in Htemp.
    destruct (fs st1 !! d); by simplify_eq. }
  apply frame_TempDir in Htemp as [_ Hf2].
  pose proof (frame_Create w d "go.mod" st2) as Hf3.
  destruct (os_Create w (Join d "go.mod") st2) as [[[]|e] st3]; simpl in Hf3.
  { pose proof (frame_Copy w d "go.mod" n st3) as Hf4.
    destruct (io_Copy w (Join d "go.mod") n st3) as [[[]|e] st4]; simpl in Hf4.
    - assert (frame d st1 st4) as Hf.
      { eapply frame_trans; [done|]. by eapply frame_trans. }
      destruct (close_fault w) as [e|]; [exact (proj1 Hf p Hp)|].
      unfold defer.
      pose proof (framed_resolveModules w d filename Hw st4) as Hres.
      destruct (resolveModules w filename d st4) as [r st5]. simpl in Hres.
      exact (proj1 (frame_trans _ _ _ _ Hf
                      (frame_trans _ _ _ _ Hres (frame_RemoveAll d st5))) p Hp).
    - exact (proj1 (frame_trans _ _ _ _ Hf2
               (frame_trans _ _ _ _ Hf3
                  (frame_trans _ _ _ _ Hf4 (frame_RemoveAll d st4)))) p Hp). }
  exact (proj1 (frame_trans _ _ _ _ Hf2
                  (frame_trans _ _ _ _ Hf3 (frame_Remove d st3))) p Hp).
Qed.

(** X9: when closing the copy does not fail and the [go] tool writes
    below its working directory only, the file system is after the run
    what it was before, whether the run returns a list or an error:
    the run leaves nothing behind and takes nothing away. *)
Theorem file_system_restored (w : World) (filename : path) (st0 : state) :
  ancestors_exist (fs st0) ->
  tools_confined w ->
  close_fault w = None ->
  fs (importRepoRulesModules w filename st0).2 = fs st0.
Proof.
  intros Htree Hw Hclose.
  destruct (tempdir_choice w) as [d|e] eqn:Hd.
  2:{ unfold importRepoRulesModules, copyGoModToTemp, os_Open, ioutil_TempDir.
      rewrite Hd. destruct (open_fault w); [done|].
      by destruct (fs st0 !! filename). }
  destruct (fs st0 !! d) as [n|] eqn:Hfree.
  { unfold importRepoRulesModules, copyGoModToTemp, os_Open, ioutil_TempDir.
    rewrite Hd. destruct (open_fault w); [done|].
    destruct (fs st0 !! filename); [|done]. simpl. by rewrite Hfree. }
  apply map_eq. intros p. destruct (decide (d `prefix_of` p)) as [Hp|Hp].
  - rewrite (tempdir_gone_unless_close_fails w filename st0 d) by done.
    symmetry. by eapply not_below_fresh.
  - by apply (run_outside_tempdir w filename st0 d).
Qed.

Lemma file_system_restored_witness :
  fs (importRepoRulesModules sampleWorld sampleManifest rootedState).2 =
  fs rootedState.
Proof.
  apply (file_system_restored sampleWorld sampleManifest rootedState).
  - unfold ancestors_exist. apply (bool_decide_unpack _). by vm_compute.
  - exact sample_tools_confined.
  - reflexivity.
Defined.

Lemma prefix_snoc_inv (d l : path) (x : string) :
  d `prefix_of` l ++ [x] -> d `prefix_of` l \/ d = l ++ [x].
Proof.
  intros [k E]. destruct k as [|y k _] using rev_ind.
  - right. by rewrite app_nil_r in E.
  - left. rewrite app_assoc in E. apply app_inj_tail in E as [-> _].
    by apply prefix_app_r.
Qed.

Lemma removelast_prefix (p : path) : removelast p `prefix_of` p.
Proof.
  destruct p as [|x p _] using rev_ind; [done|].
  rewrite removelast_last. by apply prefix_app_r.
Qed.

(** X10: the ledger that is merged is the go.sum next to the manifest
    as it was before the run, whatever the [go] tool writes in its
    working directory: the index after the merge is the listed modules
    merged with those bytes, or with none if there was no such file. *)
Theorem ledger_is_the_callers (w : World) (filename : path) (st0 : state)
    (tempDir : path) (mods : list module) (idx : index) (st : state) :
  ancestors_exist (fs st0) ->
  tools_confined w ->
  read_fault w = None ->
  tempDir <> Join (DirOf filename) "go.sum" ->
  reachesMerge w filename st0 tempDir mods idx st ->
  idx = mergeSums (ledgerBytes (fs st0) filename)
          (foldl storeModule ∅ (filter (fun m => indexed m) mods)).
Proof.
  intros Htree Hw Hread Hne (st1 & st2 & idx0 & st3 & Hcopy & Hrun & Hidx & Hload).
  destruct (copyGoModToTemp_success _ _ _ _ _ Hcopy)
    as (_ & _ & Hfree & c & Hfile & Est1).
  assert (¬ tempDir `prefix_of` Join (DirOf filename) "go.sum") as Hout.
  { intros [Hp|Hp]%prefix_snoc_inv; [|done].
    assert (tempDir `prefix_of` filename) as Hp'.
    { etrans; [done|]. apply removelast_prefix. }
    rewrite (not_below_fresh _ _ _ Htree Hfree Hp') in Hfile. done. }
  assert (fs st3 !! Join (DirOf filename) "go.sum" =
          fs st0 !! Join (DirOf filename) "go.sum") as Hsame.
  { rewrite indexModules_Ok in Hidx. injection Hidx as _ <-. simpl.
    pose proof (framed_goListModules w tempDir Hw st1) as [Hf _].
    rewrite Hrun in Hf. simpl in Hf. rewrite Hf by done.
    rewrite Est1. simpl.
    rewrite !lookup_insert_ne; [done|by intros ->|..];
      intros E; apply Hout; rewrite <- E; by apply prefix_app_r. }
  rewrite indexModules_Ok in Hidx. injection Hidx as <- _.
  unfold loadSums, ioutil_ReadFile in Hload. rewrite Hread, Hsame in Hload.
  unfold ledgerBytes.
  destruct (fs st0 !! Join (DirOf filename) "go.sum") as [[c'|]|];
    by injection Hload as <- _.
Qed.

Lemma ledger_is_the_callers_witness :
  exists idx st,
    reachesMerge sampleWorld sampleManifest rootedState sampleTemp
      sampleModules idx st /\
    idx = mergeSums (ledgerBytes (fs rootedState) sampleManifest)
            (foldl storeModule ∅ (filter (fun m => indexed m) sampleModules)).
Proof.
  eassert (reachesMerge sampleWorld sampleManifest rootedState sampleTemp
             sampleModules _ _) as H.
  { eexists _, _, _, _. repeat split; reflexivity. }
  eexists _, _. split; [exact H|].
  eapply (ledger_is_the_callers sampleWorld sampleManifest rootedState
            sampleTemp sampleModules); last exact H.
  - unfold ancestors_exist. apply (bool_decide_unpack _). by vm_compute.
  - exact sample_tools_confined.
  - reflexivity.
  - by vm_compute.
Defined.

(** ** The calls of the [go] tool in a run *)

Lemma indexModules_logs_inv dec idx st r st' :
  indexModules dec idx st = (r, st') -> calls st' = calls st /\ fs st' = fs st.
Proof.
  revert idx st. induction dec as [|[m|e] dec IH]; intros idx st; simpl.
  - by intros [= _ <-].
  - destruct (Main m); [apply IH|]. destruct (Replace m) as [r0|]; [|apply IH].
    destruct (localReplace r0); [|apply IH].
    unfold bind, logPrintf. intros H. by apply IH in H.
  - by intros [= _ <-].
Qed.

(** X11: a run calls the [go] tool at most twice and in one order:
    [go list] once, then, at most once and only with arguments,
    [go mod download]; [go mod download] is never called unless
    [go list] was.  Both run in the directory [ioutil.TempDir] made for
    the run, which did not exist before. *)
Theorem tool_calls_of_a_run (w : World) (filename : path) (st0 : state) :
  exists cs,
    calls (importRepoRulesModules w filename st0).2 = calls st0 ++ cs /\
    (cs = [] \/
     exists d,
       tempdir_choice w = Ok d /\ fs st0 !! d = None /\
       (cs = [CallList d] \/
        exists args, args <> [] /\ cs = [CallList d; CallDownload d args])).
Proof.
  unfold importRepoRulesModules.
  destruct (copyGoModToTemp w filename st0) as [[d [e|]] st1] eqn:Hcopy.
  { exists []. split; [|by left]. rewrite app_nil_r.
    pose proof (copyGoModToTemp_calls w filename st0) as H.
    by rewrite Hcopy in H. }
  destruct (copyGoModToTemp_success _ _ _ _ _ Hcopy)
    as (Hd & _ & Hfree & c & _ & Est1).
  assert (calls st1 = calls st0) as Hc1 by (by rewrite Est1).
  unfold defer, resolveModules, listModules.
  unfold bind at 1. unfold bind at 1. unfold run_goListModules.
  destruct (goListModules w d (fs st1)) as [[dec|e] f'].
  2:{ exists [CallList d]. simpl. rewrite Hc1. split; [done|].
      right. exists d. repeat split; try done. by left. }
  pose proof (indexModules_calls dec ∅
                (add_call (CallList d) (set_fs (fun _ => f') st1))) as Hc3.
  destruct (indexModules dec ∅ _) as [[idx0|e] st3]; simpl in Hc3;
    rewrite Hc1 in Hc3.
  2:{ exists [CallList d]. simpl. split; [done|].
      right. exists d. repeat split; try done. by left. }
  unfold bind.
  pose proof (loadSums_calls w filename idx0 st3) as Hc4.
  destruct (loadSums w filename idx0 st3) as [[idx1|e] st4]; simpl in Hc4;
    rewrite Hc3 in Hc4.
  2:{ exists [CallList d]. simpl. split; [done|].
      right. exists d. repeat split; try done. by left. }
  pose proof (downloadSums_calls w d idx1 st4) as Hc5.
  rewrite Hc4, <- app_assoc in Hc5.
  assert (exists cs,
    calls (downloadSums w d idx1 st4).2 = calls st0 ++ cs /\
    (cs = [CallList d] \/
     exists args, args <> [] /\ cs = [CallList d; CallDownload d args]))
    as (cs & Hcs & Hshape).
  { rewrite Hc5.
    destruct (missingSumArgs (rangeMap w 0 idx1)) as [|a args].
    - exists [CallList d]. split; [done|]. by left.
    - exists [CallList d; CallDownload d (a :: args)]. split; [done|].
      right. by exists (a :: args). }
  exists cs. split; [|right; by exists d].
  destruct (downloadSums w d idx1 st4) as [[idx2|e] st5]; simpl in Hcs;
    [|done].
  pose proof (translateRepos_calls w idx2 st5) as Hc6.
  destruct (translateRepos w idx2 st5) as [r st6]. simpl in *. congruence.
Qed.

(** ** The log of a run *)

Lemma downloadSums_logs w tempDir idx st :
  logs (downloadSums w tempDir idx st).2 = logs st.
Proof.
  unfold downloadSums. destruct (missingSumArgs _) as [|a args]; [done|].
  unfold bind, run_goModDownload.
  destruct (goModDownload w tempDir (a :: args) (fs st)) as [[dec|e] fs'];
    [|done].
  by rewrite attachSums_state.
Qed.

Lemma loadSums_logs w filename idx st :
  logs (loadSums w filename idx st).2 = logs st.
Proof.
  unfold loadSums, ioutil_ReadFile.
  repeat (case_match; simplify_eq/=; try done).
Qed.

(** X12: the log of a run that returns a list has, after what was
    there, one line for each listed module that is replaced by a file
    path and is not the main module, in the order of the listing, then
    one line for each indexed module that is still without a sum, and
    no other line. *)
Theorem log_of_a_run (w : World) (filename : path) (st0 : state)
    (repos : list Repo.t) :
  (importRepoRulesModules w filename st0).1 = Ok repos ->
  exists mods idx st,
    reachesTranslation w filename st0 mods idx st /\
    logs (importRepoRulesModules w filename st0).2 =
      logs st0 ++ omap skipMsg mods ++
      (sumMsg <$> filter (fun m => Sum m = "") (rangeMap w 1 idx)).
Proof.
  intros Hrun.
  destruct (run_Ok_inv _ _ _ _ Hrun) as (mods & idx & st & Hreach & _).
  exists mods, idx, st. split; [done|].
  destruct (run_after_download _ _ _ _ _ _ Hreach) as [tempDir ->].
  destruct Hreach as (tempDir' & idx1 & st4 &
    (st1 & st2 & idx0 & st3 & Hcopy & Hlist & Hidx & Hload) & Hdl).
  unfold defer. rewrite translateRepos_eq. simpl.
  pose proof (downloadSums_logs w tempDir' idx1 st4) as H5.
  rewrite Hdl in H5. simpl in H5. rewrite H5.
  pose proof (loadSums_logs w filename idx0 st3) as H4.
  rewrite Hload in H4. simpl in H4. rewrite H4.
  rewrite indexModules_Ok in Hidx. injection Hidx as _ <-. simpl.
  unfold run_goListModules in Hlist.
  destruct (goListModules w tempDir' (fs st1)) as [o f']. injection Hlist as _ <-.
  simpl. destruct (copyGoModToTemp_logs_calls w filename st0) as [Hl _].
  rewrite Hcopy in Hl. simpl in Hl. by rewrite Hl, <- app_assoc.
Qed.

Lemma log_of_a_run_witness :
  exists mods idx st,
    reachesTranslation silentWorld sampleManifest sampleState mods idx st /\
    logs (importRepoRulesModules silentWorld sampleManifest sampleState).2 =
      logs sampleState ++ omap skipMsg mods ++
      (sumMsg <$> filter (fun m => Sum m = "") (rangeMap silentWorld 1 idx)).
Proof.
  apply (log_of_a_run silentWorld sampleManifest sampleState
           [ Repo.mk "a.com/x" "a.com/x" "v1.0.0" "h1:aaa" "";
             Repo.mk "c.com/z" "c.com/z" "v2.0.0" "h1:ddd" "d.com/z" ]).
  vm_compute. reflexivity.
Defined.

(** ** Modules stored under one key *)

Lemma storeModule_last_inv ms k m :
  foldl storeModule ∅ ms !! k = Some m ->
  indexKey m = k /\
  exists ms1 ms2, ms = ms1 ++ m :: ms2 /\
                  forall m', m' ∈ ms2 -> indexKey m' <> k.
Proof.
  induction ms as [|m0 ms IH] using rev_ind; [done|].
  rewrite foldl_app. simpl. unfold storeModule at 1.
  destruct (decide (indexKey m0 = k)) as [E|Hne].
  - rewrite E, lookup_insert_eq. intros [= ->]. split; [done|].
    exists ms, []. split; [done|]. by intros m' ?%elem_of_nil.
  - rewrite lookup_insert_ne by done.
    intros (Hk & ms1 & ms2 & -> & Hno)%IH. split; [done|].
    exists ms1, (ms2 ++ [m0]). split; [by rewrite <- app_assoc|].
    intros m' [?|E%list_elem_of_singleton]%elem_of_app; [by apply Hno|].
    by subst m'.
Qed.

Lemma dom_storeModule ms :
  dom (foldl storeModule ∅ ms) = (list_to_set (indexKey <$> ms) : gset string).
Proof.
  apply set_eq. intros k. rewrite elem_of_dom, elem_of_list_to_set, list_elem_of_fmap.
  split.
  - intros [m [[Hin Hk]|?]%storeModule_elem]; [by exists m|].
    by rewrite lookup_empty in *.
  - intros (m & -> & Hin).
    destruct (storeModule_some ms ∅ m Hin) as (m' & Hk & _). by exists m'.
Qed.

Lemma reachesTranslation_dom w filename st0 mods idx st :
  reachesTranslation w filename st0 mods idx st ->
  dom idx = (list_to_set (indexKey <$> filter (fun m => indexed m) mods) : gset string).
Proof.
  intros (tempDir & idx1 & st4 &
          (st1 & st2 & idx0 & st3 & _ & _ & Hidx & Hload) & Hdl).
  rewrite indexModules_Ok in Hidx. injection Hidx as <- _.
  unfold loadSums in Hload.
  destruct (ioutil_ReadFile _ _ _) as [[data ?] ?]. injection Hload as <- _.
  rewrite (sumsOnly_dom _ _ (downloadSums_sumsOnly _ _ _ _ _ _ Hdl)).
  rewrite (sumsOnly_dom _ _ (sumsOnly_mergeSums _ _)). apply dom_storeModule.
Qed.

(** X13: of the listed modules that are stored under one key (a
    module and the replacement of another, say) only the last of the
    listing comes out; the earlier ones are dropped without a line in
    the log.  So the list has at most one descriptor for each key. *)
Theorem one_descriptor_per_key (w : World) (filename : path) (st0 : state)
    (repos : list Repo.t) :
  range_ok w ->
  (importRepoRulesModules w filename st0).1 = Ok repos ->
  exists mods idx st,
    reachesTranslation w filename st0 mods idx st /\
    (forall d, d ∈ repos ->
       exists ms1 m ms2,
         filter (fun m => indexed m) mods = ms1 ++ m :: ms2 /\
         (forall m', m' ∈ ms2 -> indexKey m' <> indexKey m) /\
         d = repoOf w (setSum m (Repo.Sum d))) /\
    length repos <=
      length (remove_dups (indexKey <$> filter (fun m => indexed m) mods)).
Proof.
  intros Hw Hrun.
  destruct (run_Ok_inv _ _ _ _ Hrun) as (mods & idx & st & Hreach & Htr).
  exists mods, idx, st. split; [done|]. split.
  - intros d Hd.
    apply (elem_of_repos w filename st0 repos mods idx st) in Hd
      as (k & m & Hk & _ & ->); [|done..].
    destruct Hreach as (tempDir & idx1 & st4 &
      (st1 & st2 & idx0 & st3 & _ & _ & Hidx & Hload) & Hdl).
    rewrite indexModules_Ok in Hidx. injection Hidx as <- _.
    unfold loadSums in Hload.
    destruct (ioutil_ReadFile _ _ _) as [[data ?] ?]. injection Hload as <- _.
    apply downloadSums_sumsOnly in Hdl.
    destruct (sumsOnly_Some _ _ _ _ Hdl Hk) as (m1 & Hk1 & E1).
    destruct (sumsOnly_Some _ _ _ _ (sumsOnly_mergeSums _ _) Hk1) as (m0 & Hk0 & E0).
    apply storeModule_last_inv in Hk0 as (Hkey & ms1 & ms2 & Hsplit & Hno).
    exists ms1, m0, ms2. split; [done|]. split; [by rewrite Hkey|].
    rewrite E1, E0. done.
  - rewrite translateRepos_eq in Htr. simpl in Htr. injection Htr as <-.
    rewrite sort_Slice_perm, length_fmap.
    etrans; [apply length_filter|].
    rewrite (rangeMap_perm w 1 idx Hw), length_fmap, length_map_to_list.
    rewrite <- size_dom, (reachesTranslation_dom _ _ _ _ _ _ Hreach).
    rewrite <- (size_list_to_set (C := gset string) (remove_dups _))
      by apply NoDup_remove_dups.
    apply Nat.eq_le_incl. f_equal. apply set_eq. intros k.
    by rewrite !elem_of_list_to_set, elem_of_remove_dups.
Qed.

Lemma one_descriptor_per_key_witness :
  let repos := [ Repo.mk "a.com/x" "a.com/x" "v1.0.0" "h1:aaa" "";
                 Repo.mk "b.com/y" "b.com/y" "v2.0.0" "h1:bbb" "";
                 Repo.mk "c.com/z" "c.com/z" "v2.0.0" "h1:ddd" "d.com/z" ] in
  exists mods idx st,
    reachesTranslation sampleWorld sampleManifest sampleState mods idx st /\
    (forall d, d ∈ repos ->
       exists ms1 m ms2,
         filter (fun m => indexed m) mods = ms1 ++ m :: ms2 /\
         (forall m', m' ∈ ms2 -> indexKey m' <> indexKey m) /\
         d = repoOf sampleWorld (setSum m (Repo.Sum d))) /\
    length repos <=
      length (remove_dups (indexKey <$> filter (fun m => indexed m) mods)).
Proof.
  apply (one_descriptor_per_key sampleWorld sampleManifest sampleState).
  - intros n l. reflexivity.
  - vm_compute. reflexivity.
Defined.

(** ** A project without dependencies *)

(** X14: when [go list] names the main module only, or only modules
    replaced by file paths, the run returns the empty list; whatever
    the ledger holds, [go mod download] is not called and no module is
    reported as without a sum. *)
Theorem nothing_listed_nothing_returned (w : World) (filename : path)
    (st0 : state) (tempDir : path) (st1 : state) (mods : list module)
    (f' : FS) :
  range_ok w ->
  copyGoModToTemp w filename st0 = ((tempDir, None), st1) ->
  goListModules w tempDir (fs st1) = (Ok (Ok <$> mods), f') ->
  (forall m, m ∈ mods -> indexed m = false) ->
  let out := importRepoRulesModules w filename st0 in
  out.1 = Ok [] /\
  calls out.2 = calls st0 ++ [CallList tempDir] /\
  logs out.2 = logs st0 ++ omap skipMsg mods.
Proof.
  intros Hw Hcopy Hlist Hnone out. unfold out.
  assert (filter (fun m => indexed m) mods = []) as Hf.
  { clear -Hnone. induction mods as [|m mods IH]; [done|].
    rewrite filter_cons_False.
    - apply IH. intros m' Hm'. apply Hnone. by right.
    - rewrite (Hnone m) by (by left). by intros []. }
  set (stA := add_call (CallList tempDir) (set_fs (fun _ => f') st1)).
  assert (run_goListModules w tempDir st1 = (Ok (Ok <$> mods), stA)) as Hrun.
  { unfold run_goListModules. by rewrite Hlist. }
  destruct (loadSums w filename ∅ (add_logs (omap skipMsg mods) stA))
    as [r st4] eqn:Hload.
  assert (r = Ok ∅) as ->.
  { unfold loadSums in Hload. destruct (ioutil_ReadFile _ _ _) as [[data ?] ?].
    injection Hload as <- _. f_equal. apply map_eq. intros k.
    by rewrite mergeSums_lookup, lookup_empty. }
  assert (reachesMerge w filename st0 tempDir mods ∅ st4) as Hreach.
  { exists st1, stA, ∅, (add_logs (omap skipMsg mods) stA).
    repeat split; try done. rewrite indexModules_Ok. by rewrite Hf. }
  assert (forall n, rangeMap w n ∅ = []) as Hrange.
  { intros n. unfold rangeMap. rewrite map_to_list_empty.
    pose proof (Hw n []) as ->%Permutation_nil_r. done. }
  rewrite (run_after_merge _ _ _ _ _ _ _ Hreach).
  unfold defer, bind, downloadSums. rewrite Hrange. simpl.
  rewrite translateRepos_eq, !Hrange. simpl.
  pose proof (loadSums_logs w filename ∅ (add_logs (omap skipMsg mods) stA)) as Hl.
  pose proof (loadSums_calls w filename ∅ (add_logs (omap skipMsg mods) stA)) as Hc.
  rewrite Hload in Hl, Hc. simpl in Hl, Hc.
  destruct (copyGoModToTemp_logs_calls w filename st0) as [Hl0 Hc0].
  rewrite Hcopy in Hl0, Hc0. simpl in Hl0, Hc0.
  rewrite Hl, Hc, Hl0, Hc0, app_nil_r. done.
Qed.

Lemma nothing_listed_nothing_returned_witness :
  exists st1,
    copyGoModToTemp bareWorld sampleManifest sampleState =
      ((sampleTemp, None), st1) /\
    let out := importRepoRulesModules bareWorld sampleManifest sampleState in
    out.1 = Ok [] /\
    calls out.2 = calls sampleState ++ [CallList sampleTemp] /\
    logs out.2 = logs sampleState ++ omap skipMsg bareModules.
Proof.
  eassert (copyGoModToTemp bareWorld sampleManifest sampleState =
           ((sampleTemp, None), _)) as H by reflexivity.
  eexists _. split; [exact H|].
  eapply (nothing_listed_nothing_returned bareWorld sampleManifest sampleState
            sampleTemp _ bareModules).
  - intros n l. reflexivity.
  - exact H.
  - reflexivity.
  - intros m Hm. repeat (apply elem_of_cons in Hm as [->|Hm]; [reflexivity|]).
    by apply elem_of_nil in Hm.
Defined.

(** ** A manifest that cannot be copied *)

(** X15: when there is no file at the manifest's path (nothing, or a
    directory), the run returns an error without calling the [go]
    tool or logging, and leaves the file system as it was: a directory
    it made on the way is removed again. *)
Theorem manifest_not_a_file (w : World) (filename : path) (st0 : state) :
  ancestors_exist (fs st0) ->
  (forall c, fs st0 !! filename <> Some (File c)) ->
  let out := importRepoRulesModules w filename st0 in
  (exists e, out.1 = Err e) /\
  calls out.2 = calls st0 /\
  logs out.2 = logs st0 /\
  fs out.2 = fs st0.
Proof.
  intros Htree Hnot.
  unfold importRepoRulesModules, copyGoModToTemp, os_Open.
  destruct (open_fault w) as [e|]; [by eauto|].
  destruct (fs st0 !! filename) as [[c|]|] eqn:Hfile;
    [by destruct (Hnot c)| |by eauto].
  unfold ioutil_TempDir. destruct (tempdir_choice w) as [d|e]; [|by eauto].
  simpl. destruct (fs st0 !! d) eqn:Hd; [by eauto|].
  assert (forall q, d `prefix_of` q -> fs st0 !! q = None) as Hbelow.
  { intros q Hq. by eapply not_below_fresh. }
  unfold os_Create. destruct (create_fault w) as [e|].
  - unfold os_Remove. simpl. rewrite decide_True.
    + simpl. repeat split; [by eauto|]. apply map_eq. intros p.
      destruct (decide (d = p)) as [->|Hne].
      * by rewrite lookup_delete_eq.
      * by rewrite lookup_delete_ne, lookup_insert_ne.
    + intros q x. destruct (decide (d = q)) as [->|Hne]; [done|].
      rewrite lookup_insert_ne by done. intros Hq Hpre.
      rewrite Hbelow in Hq; done.
  - unfold io_Copy.
    assert (fs (os_RemoveAll d
              (set_fs <[Join d "go.mod":=File ""]>
                 (add_op (OpCreate (Join d "go.mod"))
                    (add_op (OpMkdirTemp d)
                       (set_fs <[d:=Dir]> (add_op (OpOpen filename) st0))))))
            = fs st0) as Hfs.
    { apply map_eq. intros p. simpl. rewrite map_lookup_filter.
      destruct (decide (d `prefix_of` p)) as [Hp|Hp].
      - rewrite (Hbelow p Hp).
        destruct (_ !! p); simpl; [|done]. by rewrite option_guard_False by tauto.
      - rewrite !lookup_insert_ne.
        + destruct (fs st0 !! p); simpl; [|done]. by rewrite option_guard_True.
        + by intros ->.
        + by apply not_prefix_Join. }
    destruct (copy_fault w) as [e|]; simpl; repeat split; by eauto.
Qed.

Lemma manifest_not_a_file_witness :
  let out := importRepoRulesModules sampleWorld sampleManifest dirManifestState in
  (exists e, out.1 = Err e) /\
  calls out.2 = calls dirManifestState /\
  logs out.2 = logs dirManifestState /\
  fs out.2 = fs dirManifestState.
Proof.
  apply (manifest_not_a_file sampleWorld sampleManifest dirManifestState).
  - unfold ancestors_exist. apply (bool_decide_unpack _). by vm_compute.
  - intros c. by vm_compute.
Defined.

(** ** Where a sum comes from *)

(** X16: after merge and recovery a module has the sum of the last
    download record for its key if there is one, else the sum of the
    last ledger entry for its key if there is one, else the sum it was
    listed with. *)
Theorem sum_sources_in_order (data : string) (dls : list module)
    (idx idx' : index) (st st' : state) :
  attachSums (Ok <$> dls) (mergeSums data idx) st = (Ok idx', st') ->
  forall k m, idx !! k = Some m ->
    idx' !! k =
    Some (setSum m
            match last (filter (fun dl => Path dl = k) dls) with
            | Some dl => Sum dl
            | None =>
                match lastSumFor k (ledgerEntries data) with
                | Some s => s
                | None => Sum m
                end
            end).
Proof.
  rewrite attachSums_Ok. intros [= <- _] k m Hk.
  rewrite foldl_attachOne_lookup, mergeSums_lookup, Hk. simpl. f_equal.
  destruct (last _); [by destruct (lastSumFor _ _)|].
  destruct (lastSumFor _ _); [done|]. by rewrite setSum_id.
Qed.

Lemma sum_sources_in_order_witness :
  let m := {| Path := "a.com/x"; Version := "v1.0.0"; Sum := "";
              Main := false; Replace := None |} in
  let dl := {| Path := "a.com/x"; Version := "v1.0.0"; Sum := "h1:new";
               Main := false; Replace := None |} in
  let data := "a.com/x v1.0.0 h1:aaa" +:+ nl in
  exists idx',
    attachSums [Ok dl] (mergeSums data {["a.com/x" := m]}) sampleState =
      (Ok idx', sampleState) /\
    idx' !! "a.com/x" = Some (setSum m "h1:new").
Proof.
  intros m dl data.
  eassert (attachSums [Ok dl] (mergeSums data {["a.com/x" := m]}) sampleState =
           (Ok _, sampleState)) as H by (vm_compute; reflexivity).
  eexists. split; [exact H|].
  exact (sum_sources_in_order data [dl] {["a.com/x" := m]} _ sampleState
           sampleState H "a.com/x" m eq_refl).
Defined.

(** ** When the directory of a run stays behind *)

(** X17: the directory made for the run is still there when the run
    returns in one case only: the manifest was copied and closing the
    copy failed.  In every other case, whatever the run returns,
    nothing is left at its path. *)
Theorem directory_left_iff_close_fails (w : World) (filename : path)
    (st0 : state) (d : path) :
  ancestors_exist (fs st0) ->
  tempdir_choice w = Ok d ->
  fs st0 !! d = None ->
  is_Some (fs (importRepoRulesModules w filename st0).2 !! d) <->
  (open_fault w = None /\
   (exists c, fs st0 !! filename = Some (File c)) /\
   create_fault w = None /\ copy_fault w = None /\
   is_Some (close_fault w)).
Proof.
  intros Htree Hd Hfree.
  destruct (close_fault w) as [e|] eqn:Hclose.
  2:{ rewrite (tempdir_gone_unless_close_fails w filename st0 d) by done.
      split; [by intros [? ?]|]. by intros (_ & _ & _ & _ & [? ?]). }
  assert (forall q, d `prefix_of` q -> fs st0 !! q = None) as Hbelow.
  { intros q Hq. by eapply not_below_fresh. }
  unfold importRepoRulesModules, copyGoModToTemp, os_Open.
  destruct (open_fault w) as [e0|].
  { simpl. rewrite Hfree. split; [by intros [? ?]|]. by intros [? _]. }
  destruct (fs st0 !! filename) as [n|] eqn:Hfile.
  2:{ simpl. rewrite Hfree. split; [by intros [? ?]|].
      by intros (_ & [c ?] & _). }
  unfold ioutil_TempDir. rewrite Hd. simpl. rewrite Hfree.
  unfold os_Create. destruct (create_fault w) as [e0|].
  { unfold os_Remove. simpl. rewrite decide_True.
    - simpl. rewrite lookup_delete_eq. split; [by intros [? ?]|].
      by intros (_ & _ & ? & _).
    - intros q x. destruct (decide (d = q)) as [->|Hne]; [done|].
      rewrite lookup_insert_ne by done. intros Hq Hpre.
      rewrite Hbelow in Hq; done. }
  unfold io_Copy. destruct (copy_fault w) as [e0|].
  { cbv beta iota delta [snd]. rewrite RemoveAll_gone by done.
    split; [by intros [? ?]|]. by intros (_ & _ & _ & ? & _). }
  destruct n as [c|].
  2:{ cbv beta iota delta [snd]. rewrite RemoveAll_gone by done.
      split; [by intros [? ?]|]. by intros (_ & [c ?] & _). }
  rewrite Hclose. simpl.
  assert (d <> Join d "go.mod") as Hne.
  { intros E. apply (f_equal length) in E. unfold Join in E.
    rewrite length_app in E. simpl in E. lia. }
  rewrite !lookup_insert_ne, lookup_insert_eq by done.
  split; [|by eexists]. intros _. repeat split; eauto.
Qed.

Lemma directory_left_iff_close_fails_witness :
  is_Some (fs (importRepoRulesModules closeFailWorld sampleManifest
                 rootedState).2 !! sampleTemp) <->
  (open_fault closeFailWorld = None /\
   (exists c, fs rootedState !! sampleManifest = Some (File c)) /\
   create_fault closeFailWorld = None /\ copy_fault closeFailWorld = None /\
   is_Some (close_fault closeFailWorld)).
Proof.
  apply (directory_left_iff_close_fails closeFailWorld sampleManifest
           rootedState sampleTemp).
  - unfold ancestors_exist. apply (bool_decide_unpack _). by vm_compute.
  - reflexivity.
  - by vm_compute.
Defined.
